(** * backup_mkt: router backup fetch and retention rotation

    A shallow embedding of [backup_mkt.py].  Part I gives the definitions:
    the Python string operations the script relies on, its exceptions and
    control flow (try / except / finally / with) as a state-and-exception
    monad, the retention rotator over a directory model, the file fetcher
    over an SFTP oracle, and the thread pool of the main block as a
    scheduler-driven step function.  Part II proves the properties. *)

From Stdlib Require Import QArith Ascii.
From stdpp Require Import gmap strings list fin_maps.

Set Default Proof Using "Type".

(* ===================================================================== *)
(** * Part I. Definitions *)
(* ===================================================================== *)

(** ** Python [str] operations *)

Module Py.

(** [s.startswith(p)] *)
Fixpoint startswith (s p : string) : bool :=
  match p with
  | EmptyString => true
  | String c p' =>
      match s with
      | EmptyString => false
      | String d s' => Ascii.eqb c d && startswith s' p'
      end
  end.

(** [s[n:]] for [0 <= n] *)
Fixpoint slice_from (n : nat) (s : string) : string :=
  match n with
  | O => s
  | S k => match s with
           | EmptyString => EmptyString
           | String _ s' => slice_from k s'
           end
  end.

(** [s[:n]] for [0 <= n] *)
Fixpoint slice_to (n : nat) (s : string) : string :=
  match n with
  | O => EmptyString
  | S k => match s with
           | EmptyString => EmptyString
           | String c s' => String c (slice_to k s')
           end
  end.

(** [s.endswith(suf)] *)
Definition endswith (s suf : string) : bool :=
  (String.length suf <=? String.length s)%nat
  && String.eqb (slice_from (String.length s - String.length suf) s) suf.

(** [s.endswith((suf1, suf2, ...))]: true when some member matches. *)
Definition endswith_any (s : string) (sufs : list string) : bool :=
  existsb (endswith s) sufs.

(** [p in s] for strings: [p] occurs as a substring of [s]. *)
Fixpoint contains (s p : string) : bool :=
  startswith s p
  || match s with
     | EmptyString => false
     | String _ s' => contains s' p
     end.

(** The scan behind [s.replace(old, new)] for a non-empty [old]: left to
    right, every occurrence of [old] that does not overlap an earlier one
    is replaced; [skip] counts the characters of the occurrence just
    replaced that are still to be passed over. *)
Fixpoint replace_scan (skip : nat) (s old new : string) : string :=
  match s with
  | EmptyString => EmptyString
  | String c s' =>
      match skip with
      | S k => replace_scan k s' old new
      | O =>
          if startswith s old
          then new +:+ replace_scan (String.length old - 1) s' old new
          else String c (replace_scan 0 s' old new)
      end
  end.

(** [no_straddle old w]: no occurrence of [old] can begin in a non-empty
    string [u] and end inside [w] in [u +:+ w]; it is enough to look at
    the proper non-empty suffixes of [old]. *)
Definition no_straddle (old w : string) : bool :=
  forallb (fun k => negb (startswith w (slice_from k old)))
          (seq 1 (String.length old - 1)).

(** With an empty [old], Python puts [new] before every character and at
    the end. *)
Fixpoint intersperse (s new : string) : string :=
  match s with
  | EmptyString => new
  | String c s' => new +:+ String c (intersperse s' new)
  end.

(** [s.replace(old, new)] *)
Definition replace (s old new : string) : string :=
  match old with
  | EmptyString => intersperse s new
  | String _ _ => replace_scan 0 s old new
  end.

(** [x in l] for a list of strings *)
Definition str_in (x : string) (l : list string) : bool :=
  existsb (String.eqb x) l.

End Py.

(** ** Exceptions and control flow *)

(** The exception classes the script names or raises, plus one stand-in,
    [OtherException], for any class outside the [SSHException] and
    [OSError] families ([ValueError], [AttributeError], ...). *)
Inductive exn : Type :=
  | AuthenticationException   (* paramiko; a subclass of SSHException *)
  | SSHException
  | FileNotFoundError         (* a subclass of OSError *)
  | PermissionError           (* a subclass of OSError *)
  | OSError
  | IndexError
  | OtherException.

(** [isinstance(e, paramiko.SSHException)] *)
Definition is_SSHException (e : exn) : bool :=
  match e with
  | AuthenticationException | SSHException => true
  | _ => false
  end.

(** [isinstance(e, OSError)] *)
Definition is_OSError (e : exn) : bool :=
  match e with
  | FileNotFoundError | PermissionError | OSError => true
  | _ => false
  end.

Inductive result (A : Type) : Type :=
  | Return (a : A)
  | Raise (e : exn).
Arguments Return {A} a.
Arguments Raise {A} e.

(** Computations over a state [S] that return or raise; what was done to
    the state before a raise stays done. *)
Definition M (S A : Type) : Type := S -> S * result A.

Definition ret {S A} (a : A) : M S A := fun s => (s, Return a).

Definition raise {S A} (e : exn) : M S A := fun s => (s, Raise e).

Definition bind {S A B} (m : M S A) (f : A -> M S B) : M S B :=
  fun s =>
    match m s with
    | (s', Return a) => f a s'
    | (s', Raise e) => (s', Raise e)
    end.

#[global] Instance M_ret {S} : MRet (M S) := fun _ a => ret a.
#[global] Instance M_bind {S} : MBind (M S) := fun _ _ f m => bind m f.

(** [try: m  except ...: h e]; [h e = None] when no clause matches [e],
    which then propagates. *)
Definition try_except {S A} (m : M S A) (h : exn -> option (M S A)) : M S A :=
  fun s =>
    match m s with
    | (s', Return a) => (s', Return a)
    | (s', Raise e) =>
        match h e with
        | Some k => k s'
        | None => (s', Raise e)
        end
    end.

(** [try: m  finally: f] *)
Definition try_finally {S A} (m : M S A) (f : M S unit) : M S A :=
  fun s =>
    match m s with
    | (s', r) =>
        match f s' with
        | (s'', Return _) => (s'', r)
        | (s'', Raise e) => (s'', Raise e)
        end
    end.

(** [for x in l: body x] *)
Fixpoint for_each {S A} (l : list A) (body : A -> M S unit) : M S unit :=
  match l with
  | [] => ret tt
  | x :: l' => bind (body x) (fun _ => for_each l' body)
  end.

(** ** Log *)

(** One constructor per [logging] call of the script, with the arguments
    that call formats into its message. *)
Inductive log_line : Type :=
  | LogConnectAuth (ip : string)
  | LogConnectSSH (ip : string) (e : exn)
  | LogConnectOS (ip : string) (e : exn)
  | LogDownloaded (archivo router_name : string)
  | LogGetNotFound (e : exn)
  | LogGetPermission (e : exn)
  | LogGetSSH (archivo : string) (e : exn)
  | LogGetOS (archivo : string) (e : exn)
  | LogMissing (archivo router_name : string)
  | LogFetchSSH (router_name : string) (e : exn)
  | LogFetchOS (router_name : string) (e : exn)
  | LogRenamed (archivo nuevo_nombre : string)
  | LogRenameNotFound (e : exn)
  | LogRenamePermission (e : exn)
  | LogRenameOS (archivo : string) (e : exn).

Inductive level : Type := INFO | WARNING | ERROR.

Definition level_of (l : log_line) : level :=
  match l with
  | LogDownloaded _ _ | LogRenamed _ _ => INFO
  | LogMissing _ _ => WARNING
  | _ => ERROR
  end.

(** ** Retention rotator: [renombrar_backups_antiguos] *)

Definition DIAS_MAXIMOS : Q := 6.

(** The backup directory: entry name to creation time in seconds, as
    [os.path.getctime] reports it.  [os.path.join(backup_path, name)] names
    the entry [name] of this directory (listing entries hold no separator).
    Times are exact rationals; the rounding of Python floats is not
    modelled.  The directory answers a call on a missing entry with
    [FileNotFoundError]; it never refuses a call on an entry it holds, and
    a rename onto an existing name replaces that entry. *)
Record fs_state : Type := FsState {
  dir : gmap string Q;
  renombres : list (string * string);   (* the [os.rename] calls that succeeded *)
  fs_log : list log_line
}.

Definition fs_init (d : gmap string Q) : fs_state := FsState d [] [].

Definition Qgtb (x y : Q) : bool := negb (Qle_bool x y).

Module Rotator.
Section Rotator.

(** What [getctime] reports for a renamed entry, from its value before
    and the time of the run: unchanged where it is the creation time,
    the time of the rename where it is the status-change time. *)
Variable ctime_renamed : Q -> Q -> Q.

(** [time.time()] at the start of the run *)
Variable ahora : Q.

Definition os_listdir (d : gmap string Q) : list string :=
  (map_to_list d).*1.

Definition os_path_getctime (archivo : string) : M fs_state Q :=
  fun st =>
    match dir st !! archivo with
    | Some t => (st, Return t)
    | None => (st, Raise FileNotFoundError)
    end.

Definition os_rename (src dst : string) : M fs_state unit :=
  fun st =>
    match dir st !! src with
    | Some t =>
        (FsState (<[dst := ctime_renamed t ahora]> (delete src (dir st)))
                 (renombres st ++ [(src, dst)]) (fs_log st),
         Return tt)
    | None => (st, Raise FileNotFoundError)
    end.

Definition logging (l : log_line) : M fs_state unit :=
  fun st =>
    (FsState (dir st) (renombres st) (fs_log st ++ [l]), Return tt).

(** [archivo.endswith((".rsc", ".backup")) and not
    archivo.endswith(("-old.rsc", "-old.backup"))] *)
Definition es_candidato (archivo : string) : bool :=
  Py.endswith_any archivo [".rsc"; ".backup"]
  && negb (Py.endswith_any archivo ["-old.rsc"; "-old.backup"]).

(** [archivo.replace(".rsc", "-old.rsc").replace(".backup", "-old.backup")] *)
Definition nuevo_nombre (archivo : string) : string :=
  Py.replace (Py.replace archivo ".rsc" "-old.rsc") ".backup" "-old.backup".

(** [(ahora - fecha_creacion) / (24 * 3600)] *)
Definition antiguedad_dias (fecha_creacion : Q) : Q :=
  (ahora - fecha_creacion) / (24 * 3600).

(** The body of the [for] loop: the [try] block and its three handlers. *)
Definition rotar_archivo (archivo : string) : M fs_state unit :=
  try_except
    (if es_candidato archivo then
       fecha_creacion ← os_path_getctime archivo;
       if Qgtb (antiguedad_dias fecha_creacion) DIAS_MAXIMOS then
         os_rename archivo (nuevo_nombre archivo);;
         logging (LogRenamed archivo (nuevo_nombre archivo))
       else ret tt
     else ret tt)
    (fun e =>
       match e with
       | FileNotFoundError => Some (logging (LogRenameNotFound e))
       | PermissionError => Some (logging (LogRenamePermission e))
       | OSError => Some (logging (LogRenameOS archivo e))
       | _ => None
       end).

Definition renombrar_backups_antiguos : M fs_state unit :=
  fun st => for_each (os_listdir (dir st)) rotar_archivo st.

(** The state a run leaves behind. *)
Definition rotar (st : fs_state) : fs_state :=
  fst (renombrar_backups_antiguos st).

(** Whether the entry [archivo] of [d] is due: a candidate older than
    the threshold. *)
Definition debe_rotar (d : gmap string Q) (archivo : string) : bool :=
  es_candidato archivo
  && match d !! archivo with
     | Some t => Qgtb (antiguedad_dias t) DIAS_MAXIMOS
     | None => false
     end.

(** No entry of [d] is due. *)
Definition estable (d : gmap string Q) : Prop :=
  forall n, debe_rotar d n = false.

(** The ways one iteration changes the state: nothing to do, the entry
    has vanished (logged), or the entry is renamed (logged). *)
Inductive paso (n : string) (st : fs_state) : fs_state -> Prop :=
  | paso_skip :
      debe_rotar (dir st) n = false ->
      (es_candidato n = true -> is_Some (dir st !! n)) ->
      paso n st st
  | paso_missing :
      es_candidato n = true -> dir st !! n = None ->
      paso n st (FsState (dir st) (renombres st)
                   (fs_log st ++ [LogRenameNotFound FileNotFoundError]))
  | paso_rename t :
      es_candidato n = true -> dir st !! n = Some t ->
      Qgtb (antiguedad_dias t) DIAS_MAXIMOS = true ->
      paso n st
        (FsState (<[nuevo_nombre n := ctime_renamed t ahora]>
                    (delete n (dir st)))
                 (renombres st ++ [(n, nuevo_nombre n)])
                 (fs_log st ++ [LogRenamed n (nuevo_nombre n)])).

End Rotator.
End Rotator.

(** ** Remote session manager and file fetcher *)

(** [os.path.join(a, b)] for two arguments, POSIX flavour. *)
Definition os_path_join (a b : string) : string :=
  if Py.startswith b "/" then b
  else if String.eqb a "" || Py.endswith a "/" then a +:+ b
  else a +:+ "/" +:+ b.

(** What a backup job does that the world can see, in order. *)
Inductive event : Type :=
  | EvSessionOpen (ip : string)        (* [ssh.connect] returned *)
  | EvSftpOpen                         (* [open_sftp] returned *)
  | EvListdir (path : string)          (* [sftp_client.listdir(path)] called *)
  | EvGet (remotepath localpath : string)   (* [sftp_client.get] called *)
  | EvLocalOpen (localpath : string)   (* [get] opened the local file: it exists, empty *)
  | EvWritten (localpath : string)     (* [get] returned: the local file is complete *)
  | EvSftpClose                        (* the [with] block closed the SFTP client *)
  | EvSessionClose                     (* [ssh_client.close()] *)
  | EvLog (l : log_line).

(** How the outside answers each call a job makes: the router, and the
    local file system where [get] writes.  The fields are arbitrary: every
    outcome of every call is covered.  Every call is taken to end, by
    returning or by raising; a call that never answers (the script sets no
    timeout) is outside this model. *)
Record Remote : Type := {
  connect_outcome : result unit;
  open_sftp_outcome : result unit;
  listdir_outcome : string -> result (list string);
  local_open_outcome : string -> result unit;         (* [open(localpath, "wb")] *)
  transfer_outcome : string -> string -> result unit  (* the transfer into it *)
}.

(** How [sftp_client.get(remotepath, localpath)] ends: it opens
    [localpath] for writing, which creates or empties the file, and only
    then transfers the remote file into it, so a call that fails in the
    transfer leaves the local file behind. *)
Definition get_outcome (r : Remote) (remotepath localpath : string)
    : result unit :=
  match local_open_outcome r localpath with
  | Return _ => transfer_outcome r remotepath localpath
  | Raise e => Raise e
  end.

(** The client object [conectar_ssh] returns, bound to its address. *)
Inductive SSHClient : Type := SSHClientTo (ip : string).

Module Fetcher.

Definition emit (ev : event) : M (list event) unit :=
  fun tr => (tr ++ [ev], Return tt).

Definition logging (l : log_line) : M (list event) unit := emit (EvLog l).

(** A call to the outside, answered by the oracle. *)
Definition call {A} (r : result A) : M (list event) A := fun tr => (tr, r).

Definition ssh_connect (r : Remote) (ip : string) : M (list event) unit :=
  call (connect_outcome r);; emit (EvSessionOpen ip).

Definition sftp_listdir (r : Remote) (path : string)
    : M (list event) (list string) :=
  emit (EvListdir path);; call (listdir_outcome r path).

Definition sftp_get (r : Remote) (remotepath localpath : string)
    : M (list event) unit :=
  emit (EvGet remotepath localpath);;
  call (local_open_outcome r localpath);;
  emit (EvLocalOpen localpath);;
  call (transfer_outcome r remotepath localpath);;
  emit (EvWritten localpath).

(** [with ssh_client.open_sftp() as sftp_client: body]; the client is
    closed however the body ends.  [None.open_sftp()] is an
    [AttributeError]. *)
Definition with_open_sftp {A} (r : Remote) (ssh_client : option SSHClient)
    (body : M (list event) A) : M (list event) A :=
  match ssh_client with
  | None => raise OtherException
  | Some _ =>
      call (open_sftp_outcome r);; emit EvSftpOpen;;
      try_finally body (emit EvSftpClose)
  end.

Definition conectar_ssh (r : Remote) (ip_address : string)
    : M (list event) (option SSHClient) :=
  try_except
    (ssh_connect r ip_address;; ret (Some (SSHClientTo ip_address)))
    (fun e =>
       match e with
       | AuthenticationException =>
           Some (logging (LogConnectAuth ip_address);; ret None)
       | _ =>
           if is_SSHException e
           then Some (logging (LogConnectSSH ip_address e);; ret None)
           else if is_OSError e
           then Some (logging (LogConnectOS ip_address e);; ret None)
           else None
       end).

(** [f"{router_name}_{current_time}_{archivo}"] *)
Definition nuevo_nombre_archivo (router_name current_time archivo : string)
    : string :=
  router_name +:+ "_" +:+ current_time +:+ "_" +:+ archivo.

Definition descargar_archivo (r : Remote)
    (archivo backup_path router_name current_time : string)
    : M (list event) unit :=
  try_except
    (sftp_get r ("/" +:+ archivo)
       (os_path_join backup_path
          (nuevo_nombre_archivo router_name current_time archivo));;
     logging (LogDownloaded archivo router_name))
    (fun e =>
       match e with
       | FileNotFoundError => Some (logging (LogGetNotFound e))
       | PermissionError => Some (logging (LogGetPermission e))
       | _ =>
           if is_SSHException e then Some (logging (LogGetSSH archivo e))
           else if is_OSError e then Some (logging (LogGetOS archivo e))
           else None
       end).

Definition archivos_deseados : list string := ["latest.rsc"; "latest.backup"].

(** [current_time] is [time.strftime("%Y%m%d")], read once per call. *)
Definition descargar_archivos (r : Remote) (ssh_client : option SSHClient)
    (router_name backup_path current_time : string) : M (list event) unit :=
  try_finally
    (try_except
       (with_open_sftp r ssh_client
          (archivos_remotos ← sftp_listdir r ".";
           for_each archivos_deseados (fun archivo =>
             if Py.str_in archivo archivos_remotos
             then descargar_archivo r archivo backup_path router_name
                    current_time
             else logging (LogMissing archivo router_name))))
       (fun e =>
          if is_SSHException e then Some (logging (LogFetchSSH router_name e))
          else if is_OSError e then Some (logging (LogFetchOS router_name e))
          else None))
    (match ssh_client with
     | Some _ => emit EvSessionClose
     | None => ret tt
     end).

Definition respaldar_router (r : Remote)
    (ip_address router_name backup_path current_time : string)
    : M (list event) unit :=
  ssh_client ← conectar_ssh r ip_address;
  match ssh_client with
  | Some c => descargar_archivos r (Some c) router_name backup_path current_time
  | None => ret tt
  end.

(** The exception classes the handlers of the fetcher catch. *)
Definition caught (e : exn) : bool := is_SSHException e || is_OSError e.

(** A remote side whose failures all fall in those classes. *)
Definition failures_caught (r : Remote) : Prop :=
  (forall e, open_sftp_outcome r = Raise e -> caught e = true)
  /\ (forall p e, listdir_outcome r p = Raise e -> caught e = true)
  /\ (forall p q e, get_outcome r p q = Raise e -> caught e = true).

(** Some call to the remote side ends by raising [e]. *)
Definition raised_by (r : Remote) (e : exn) : Prop :=
  open_sftp_outcome r = Raise e
  \/ (exists p, listdir_outcome r p = Raise e)
  \/ (exists p q, get_outcome r p q = Raise e).

(** The line [descargar_archivo] logs for a transfer that raised [e];
    [None] when no handler matches. *)
Definition per_file_log (archivo : string) (e : exn) : option log_line :=
  match e with
  | FileNotFoundError => Some (LogGetNotFound e)
  | PermissionError => Some (LogGetPermission e)
  | AuthenticationException | SSHException => Some (LogGetSSH archivo e)
  | OSError => Some (LogGetOS archivo e)
  | IndexError | OtherException => None
  end.

(** The line [descargar_archivos] logs when opening the SFTP client or
    listing raised [e] of a class it catches. *)
Definition fetch_log (router_name : string) (e : exn) : log_line :=
  if is_SSHException e then LogFetchSSH router_name e
  else LogFetchOS router_name e.

(** The events of a call of [get] up to the transfer: the call, and the
    local file once opened. *)
Definition eventos_get (r : Remote) (remotepath localpath : string)
    : list event :=
  EvGet remotepath localpath ::
  match local_open_outcome r localpath with
  | Return _ => [EvLocalOpen localpath]
  | Raise _ => []
  end.

(** The events of one allow-listed file whose transfer, if any, ends in a
    way the handlers of [descargar_archivo] cover: they depend on the
    listing and on the outcome of this file's own transfer only. *)
Definition eventos_archivo (r : Remote)
    (router_name backup_path current_time : string)
    (archivos_remotos : list string) (archivo : string) : list event :=
  let remotepath := "/" +:+ archivo in
  let localpath :=
    os_path_join backup_path
      (nuevo_nombre_archivo router_name current_time archivo) in
  if Py.str_in archivo archivos_remotos then
    eventos_get r remotepath localpath ++
    match get_outcome r remotepath localpath with
    | Return _ => [EvWritten localpath; EvLog (LogDownloaded archivo router_name)]
    | Raise e => match per_file_log archivo e with
                 | Some l => [EvLog l]
                 | None => []
                 end
    end
  else [EvLog (LogMissing archivo router_name)].

(** The calls a trace makes on the SFTP client: [listdir] and [get]. *)
Definition solicitudes (tr : list event) : list event :=
  List.filter (fun ev => match ev with
                         | EvListdir _ | EvGet _ _ => true
                         | _ => false
                         end) tr.

(** Of the allow-listed files found in the listing, those the loop
    reaches: each in turn, up to and including the first whose [get] ends
    with an exception that no handler of [descargar_archivo] catches. *)
Fixpoint alcanzados (r : Remote) (localpath_of : string -> string)
    (presentes : list string) : list string :=
  match presentes with
  | [] => []
  | archivo :: resto =>
      archivo ::
      match get_outcome r ("/" +:+ archivo) (localpath_of archivo) with
      | Return _ => alcanzados r localpath_of resto
      | Raise e => if caught e then alcanzados r localpath_of resto else []
      end
  end.

(** What every event of one call of [descargar_archivos] looks like,
    before the final close of the session. *)
Definition fetch_event_ok (r : Remote)
    (router_name backup_path current_time : string) (ev : event) : Prop :=
  match ev with
  | EvSessionOpen _ | EvSessionClose => False
  | EvListdir p => p = "."
  | EvGet remotepath localpath =>
      exists archivo l,
        In archivo archivos_deseados
        /\ listdir_outcome r "." = Return l
        /\ Py.str_in archivo l = true
        /\ remotepath = "/" +:+ archivo
        /\ localpath =
             os_path_join backup_path
               (nuevo_nombre_archivo router_name current_time archivo)
  | _ => True
  end.

(** [m] only appends events satisfying [Q] to the trace, raises only
    exceptions satisfying [C] and returns only values satisfying [V]. *)
Definition behaves {A} (Q : event -> Prop) (C : exn -> Prop)
    (V : A -> Prop) (m : M (list event) A) : Prop :=
  forall tr, exists tr' res,
    m tr = (tr ++ tr', res)
    /\ Forall Q tr'
    /\ match res with Return a => V a | Raise e => C e end.

End Fetcher.

(** ** A remote file system behind the SFTP oracle *)

Module Sftp.

(** The components of a path between its separators. *)
Fixpoint components_go (cur s : string) : list string :=
  match s with
  | EmptyString => if String.eqb cur "" then [] else [cur]
  | String c s' =>
      if Ascii.eqb c "/"%char
      then (if String.eqb cur "" then [] else [cur]) ++ components_go "" s'
      else components_go (cur +:+ String c "") s'
  end.

Definition components (p : string) : list string :=
  List.filter (fun c => negb (String.eqb c ".")) (components_go "" p).

(** What a path names, as the components of an absolute path ([[]] is
    the root): a path that starts with the separator is taken from the
    root, any other from the working directory.  Components [..] are not
    interpreted. *)
Definition resolve (cwd : list string) (p : string) : list string :=
  if Py.startswith p "/" then components p else cwd ++ components p.

(** A server: the working directory of the session and the absolute
    paths of its files. *)
Record Server : Type := {
  cwd : list string;
  files : list (list string)
}.

Fixpoint strip_prefix (d f : list string) : option (list string) :=
  match d, f with
  | [], _ => Some f
  | x :: d', y :: f' => if String.eqb x y then strip_prefix d' f' else None
  | _ :: _, [] => None
  end.

(** The entries of directory [d]: files in it and its subdirectories. *)
Definition entries (sv : Server) (d : list string) : list string :=
  remove_dups
    (omap (fun f => match strip_prefix d f with
                    | Some (n :: _) => Some n
                    | _ => None
                    end) (files sv)).

Definition has_file (sv : Server) (f : list string) : bool :=
  existsb (fun g => bool_decide (g = f)) (files sv).

Definition remote (sv : Server) : Remote := {|
  connect_outcome := Return tt;
  open_sftp_outcome := Return tt;
  listdir_outcome p := Return (entries sv (resolve (cwd sv) p));
  local_open_outcome _ := Return tt;
  transfer_outcome p _ :=
    if has_file sv (resolve (cwd sv) p) then Return tt
    else Raise FileNotFoundError
|}.

End Sftp.

(** ** Fleet orchestrator: the main block and its thread pool *)

Module Fleet.

Definition max_workers : nat := 4.

Record job : Type := Job {
  job_id : nat;                      (* order of submission *)
  ip_router : string;
  nombre_router_interno : string
}.

(** What the run as a whole does, in order. *)
Inductive gevent : Type :=
  | GDispatch (j : job)              (* [executor.submit(respaldar_router, ...)] *)
  | GStart (id : nat)                (* a worker thread takes the job *)
  | GJob (id : nat) (ev : event)     (* an event of the running job *)
  | GDone (id : nat)                 (* the job's call has ended *)
  | GRotate (backup_path : string).  (* [renombrar_backups_antiguos] is called *)

(** Where the main thread stands. *)
Inductive main_pc : Type :=
  | MOpen                                     (* about to [open("rt.csv")] *)
  | MLoop (filas : list (result (list string)))   (* in the [for]; rows not read yet *)
  | MShutdown (pending : option exn)          (* leaving [with ThreadPoolExecutor]: waits *)
  | MRotate                                   (* both [with] blocks left *)
  | MFinished
  | MAborted (e : exn).                       (* an exception left the script *)

(** Everything outside the script: the router list (whether it opens,
    and what [csv.reader] yields row by row), the routers, the date each
    job reads, the working directory, and how the call of
    [renombrar_backups_antiguos] on it ends.  That call is the last
    statement and stands in no [try]; inside it [os.listdir] comes before
    the [try], so what [os.listdir] raises leaves the call and the
    script. *)
Record World : Type := {
  rt_csv : result (list (result (list string)));
  remote_of_ip : string -> Remote;
  strftime : nat -> string;
  ruta_respaldo_principal : string;
  rotator_outcome : result unit
}.

Record state : Type := State {
  main : main_pc;
  next_id : nat;
  queue : list job;                            (* submitted, not yet taken *)
  workers : list (option (nat * list event));  (* per thread: job and its events to come *)
  trace : list gevent
}.

Definition init : state :=
  State MOpen 0 [] (replicate max_workers None) [].

Definition all_idle (ws : list (option (nat * list event))) : bool :=
  forallb (fun w => match w with None => true | Some _ => false end) ws.

(** The events of one job: [respaldar_router] run to its end.  How the
    call ends is kept in its future, which nobody reads.  Every call the
    job makes is taken to answer (see [Remote]), so the job ends; a router
    that never answers would keep its worker thread, and with it the exit
    of the pool, waiting. *)
Definition job_events (w : World) (j : job) : list event :=
  fst (Fetcher.respaldar_router (remote_of_ip w (ip_router j))
         (ip_router j) (nombre_router_interno j)
         (ruta_respaldo_principal w) (strftime w (job_id j)) []).

Definition step_main (w : World) (st : state) : option state :=
  match main st with
  | MOpen =>
      match rt_csv w with
      | Return filas =>
          Some (State (MLoop filas) (next_id st) (queue st) (workers st) (trace st))
      | Raise e =>
          Some (State (MAborted e) (next_id st) (queue st) (workers st) (trace st))
      end
  | MLoop [] =>
      Some (State (MShutdown None) (next_id st) (queue st) (workers st) (trace st))
  | MLoop (Raise e :: _) =>
      Some (State (MShutdown (Some e)) (next_id st) (queue st) (workers st) (trace st))
  | MLoop (Return fila :: rest) =>
      match fila with
      | ip :: nombre :: _ =>
          let j := Job (next_id st) ip nombre in
          Some (State (MLoop rest) (S (next_id st)) (queue st ++ [j])
                      (workers st) (trace st ++ [GDispatch j]))
      | _ =>
          Some (State (MShutdown (Some IndexError)) (next_id st) (queue st)
                      (workers st) (trace st))
      end
  | MShutdown pending =>
      match queue st with
      | [] =>
          if all_idle (workers st) then
            Some (State (match pending with
                         | None => MRotate
                         | Some e => MAborted e
                         end)
                        (next_id st) (queue st) (workers st) (trace st))
          else None
      | _ :: _ => None
      end
  | MRotate =>
      Some (State (match rotator_outcome w with
                   | Return _ => MFinished
                   | Raise e => MAborted e
                   end)
                  (next_id st) (queue st) (workers st)
                  (trace st ++ [GRotate (ruta_respaldo_principal w)]))
  | MFinished | MAborted _ => None
  end.

Definition step_worker (w : World) (i : nat) (st : state) : option state :=
  match workers st !! i with
  | None => None
  | Some None =>
      match queue st with
      | [] => None
      | j :: q =>
          Some (State (main st) (next_id st) q
                      (<[i := Some (job_id j, job_events w j)]> (workers st))
                      (trace st ++ [GStart (job_id j)]))
      end
  | Some (Some (id, ev :: rest)) =>
      Some (State (main st) (next_id st) (queue st)
                  (<[i := Some (id, rest)]> (workers st))
                  (trace st ++ [GJob id ev]))
  | Some (Some (id, [])) =>
      Some (State (main st) (next_id st) (queue st)
                  (<[i := None]> (workers st))
                  (trace st ++ [GDone id]))
  end.

(** One move of thread [who]: [0] is the main thread, [S i] worker [i].
    [None]: that thread cannot move now. *)
Definition step (w : World) (who : nat) (st : state) : option state :=
  match who with
  | O => step_main w st
  | S i => step_worker w i st
  end.

(** A run under a schedule; a thread that cannot move is passed over. *)
Fixpoint run (w : World) (sched : list nat) (st : state) : state :=
  match sched with
  | [] => st
  | who :: sched' =>
      match step w who st with
      | Some st' => run w sched' st'
      | None => run w sched' st
      end
  end.

Definition terminated (st : state) : bool :=
  match main st with
  | MFinished | MAborted _ => true
  | _ => false
  end.

(** Sessions opened and closed so far. *)
Definition opened (tr : list gevent) : nat :=
  length (List.filter (fun g => match g with
                                | GJob _ (EvSessionOpen _) => true
                                | _ => false
                                end) tr).

Definition closed (tr : list gevent) : nat :=
  length (List.filter (fun g => match g with
                                | GJob _ EvSessionClose => true
                                | _ => false
                                end) tr).

Definition rotations (tr : list gevent) : nat :=
  length (List.filter (fun g => match g with
                                | GRotate _ => true
                                | _ => false
                                end) tr).

Definition dispatched (tr : list gevent) : list job :=
  omap (fun g => match g with GDispatch j => Some j | _ => None end) tr.

Definition done_ids (tr : list gevent) : list nat :=
  omap (fun g => match g with GDone id => Some id | _ => None end) tr.

(** The rows of the list up to the first one that cannot be used: the
    (address, name) pairs read, and the exception that ends the reading,
    if any. *)
Fixpoint leer (filas : list (result (list string)))
    : list (string * string) * option exn :=
  match filas with
  | [] => ([], None)
  | Raise e :: _ => ([], Some e)
  | Return (ip :: nombre :: _) :: rest =>
      let (js, err) := leer rest in ((ip, nombre) :: js, err)
  | Return _ :: _ => ([], Some IndexError)
  end.

(** Whether the job whose events to come are [rest] holds an open
    session now: its next session event is a close. *)
Fixpoint holds (rest : list event) : bool :=
  match rest with
  | [] => false
  | EvSessionOpen _ :: _ => false
  | EvSessionClose :: _ => true
  | _ :: rest' => holds rest'
  end.

(** Opens and closes alternate in [l], starting from [open], and no
    session is left open at the end. *)
Fixpoint session_ok (open : bool) (l : list event) : bool :=
  match l with
  | [] => negb open
  | EvSessionOpen _ :: l' => negb open && session_ok true l'
  | EvSessionClose :: l' => open && session_ok false l'
  | _ :: l' => session_ok open l'
  end.

Definition holding (wk : option (nat * list event)) : nat :=
  match wk with
  | Some (_, rest) => if holds rest then 1 else 0
  | None => 0
  end.

(** Number of worker threads holding an open session. *)
Definition held (ws : list (option (nat * list event))) : nat :=
  sum_list (map holding ws).

Definition worker_ok (wk : option (nat * list event)) : Prop :=
  match wk with
  | Some (_, rest) => session_ok (holds rest) rest = true
  | None => True
  end.

(** Every open session is held by a worker thread, and every running
    job will close the session it holds. *)
Definition sessions_inv (st : state) : Prop :=
  opened (trace st) = closed (trace st) + held (workers st)
  /\ Forall worker_ok (workers st)
  /\ length (workers st) = max_workers.

(** The (address, name) pairs submitted so far, in order. *)
Definition pares (tr : list gevent) : list (string * string) :=
  map (fun j => (ip_router j, nombre_router_interno j)) (dispatched tr).

(** Whether the whole list can be read. *)
Definition list_read_ok (w : World) : bool :=
  match rt_csv w with
  | Return filas => match snd (leer filas) with
                    | None => true
                    | Some _ => false
                    end
  | Raise _ => false
  end.

(** The state once the rotator has been called: the whole list was read,
    every pair was submitted, no job waits or runs, and the call is the
    last event and the only one of its kind. *)
Definition rotated (w : World) (st : state) : Prop :=
  exists filas pre,
    rt_csv w = Return filas
    /\ pares (trace st) = fst (leer filas)
    /\ snd (leer filas) = None
    /\ trace st = pre ++ [GRotate (ruta_respaldo_principal w)]
    /\ rotations pre = 0
    /\ queue st = [] /\ all_idle (workers st) = true.

(** What the position of the main thread tells about the state. *)
Definition main_inv (w : World) (st : state) : Prop :=
  match main st with
  | MOpen => trace st = [] /\ queue st = [] /\ all_idle (workers st) = true
  | MLoop rest =>
      exists filas,
        rt_csv w = Return filas
        /\ pares (trace st) ++ fst (leer rest) = fst (leer filas)
        /\ snd (leer rest) = snd (leer filas)
        /\ rotations (trace st) = 0
  | MShutdown pending =>
      exists filas,
        rt_csv w = Return filas
        /\ pares (trace st) = fst (leer filas)
        /\ pending = snd (leer filas)
        /\ rotations (trace st) = 0
  | MRotate =>
      exists filas,
        rt_csv w = Return filas
        /\ pares (trace st) = fst (leer filas)
        /\ snd (leer filas) = None
        /\ rotations (trace st) = 0
        /\ queue st = [] /\ all_idle (workers st) = true
  | MFinished =>
      rotated w st /\ rotator_outcome w = Return tt
  | MAborted e =>
      queue st = [] /\ all_idle (workers st) = true
      /\ ((rt_csv w = Raise e /\ trace st = [])
          \/ (rotations (trace st) = 0
              /\ exists filas,
                   rt_csv w = Return filas
                   /\ pares (trace st) = fst (leer filas)
                   /\ snd (leer filas) = Some e)
          \/ (rotated w st /\ rotator_outcome w = Raise e))
  end.

(** Every submitted job is waiting, running or done. *)
Definition accounted (st : state) : Prop :=
  forall j, In j (dispatched (trace st)) ->
    In j (queue st)
    \/ (exists i rest, workers st !! i = Some (Some (job_id j, rest)))
    \/ In (job_id j) (done_ids (trace st)).

(** Work still to do, for the termination argument. *)
Fixpoint future (w : World) (n : nat) (filas : list (result (list string)))
    : nat :=
  match filas with
  | [] => 0
  | Return (ip :: nombre :: _) :: rest =>
      3 + length (job_events w (Job n ip nombre)) + future w (S n) rest
  | _ :: rest => 1 + future w (S n) rest
  end.

Definition main_weight (w : World) (st : state) : nat :=
  match main st with
  | MOpen => match rt_csv w with
             | Return filas => 4 + future w (next_id st) filas
             | Raise _ => 1
             end
  | MLoop rest => 3 + future w (next_id st) rest
  | MShutdown _ => 2
  | MRotate => 1
  | MFinished | MAborted _ => 0
  end.

Definition worker_weight (wk : option (nat * list event)) : nat :=
  match wk with
  | Some (_, rest) => 1 + length rest
  | None => 0
  end.

Definition measure (w : World) (st : state) : nat :=
  main_weight w st
  + sum_list (map (fun j => 2 + length (job_events w j)) (queue st))
  + sum_list (map worker_weight (workers st)).

End Fleet.

(** ** Sample inputs *)

Module Samples.

(** [getctime] is the creation time: a rename leaves it alone. *)
Definition keep_ctime (t ahora : Q) : Q := t.

Definition seis_dias : Q := 6 * 86400.
Definition siete_dias : Q := 7 * 86400.

(** A router whose root holds both exports; the session starts there. *)
Definition router_ok : Remote :=
  Sftp.remote {| Sftp.cwd := [];
                 Sftp.files := [["latest.rsc"]; ["latest.backup"]] |}.

(** Both exports are listed; reading the first is refused. *)
Definition router_denied : Remote := {|
  connect_outcome := Return tt;
  open_sftp_outcome := Return tt;
  listdir_outcome _ := Return ["latest.backup"; "latest.rsc"];
  local_open_outcome _ := Return tt;
  transfer_outcome p _ :=
    if String.eqb p "/latest.rsc" then Raise PermissionError else Return tt
|}.

(** Both exports are listed; the first transfer ends with an exception
    outside the [SSHException] and [OSError] families. *)
Definition router_other : Remote := {|
  connect_outcome := Return tt;
  open_sftp_outcome := Return tt;
  listdir_outcome _ := Return ["latest.backup"; "latest.rsc"];
  local_open_outcome _ := Return tt;
  transfer_outcome p _ :=
    if String.eqb p "/latest.rsc" then Raise OtherException else Return tt
|}.

(** The listing fails. *)
Definition router_no_listing : Remote := {|
  connect_outcome := Return tt;
  open_sftp_outcome := Return tt;
  listdir_outcome _ := Raise SSHException;
  local_open_outcome _ := Return tt;
  transfer_outcome _ _ := Return tt
|}.

(** The session starts in a home directory that holds the export; the
    root does not. *)
Definition router_home : Remote :=
  Sftp.remote {| Sftp.cwd := ["home"; "admin"];
                 Sftp.files := [["home"; "admin"; "latest.rsc"]] |}.

Definition cliente : SSHClient := SSHClientTo "10.0.0.1".

(** A list whose second row has a single field. *)
Definition mundo_fila_corta : Fleet.World := {|
  Fleet.rt_csv := Return [Return ["10.0.0.1"; "edge1"]; Return ["10.0.0.2"]];
  Fleet.remote_of_ip _ := router_ok;
  Fleet.strftime _ := "20240101";
  Fleet.ruta_respaldo_principal := "/srv/bk";
  Fleet.rotator_outcome := Return tt
|}.

(** A list with an empty line after its first row. *)
Definition mundo_linea_vacia : Fleet.World := {|
  Fleet.rt_csv := Return [Return ["10.0.0.1"; "edge1"]; Return [];
                          Return ["10.0.0.3"; "edge3"]];
  Fleet.remote_of_ip _ := router_ok;
  Fleet.strftime _ := "20240101";
  Fleet.ruta_respaldo_principal := "/srv/bk";
  Fleet.rotator_outcome := Return tt
|}.

(** Ten routers, all reachable. *)
Definition mundo_diez : Fleet.World := {|
  Fleet.rt_csv :=
    Return (map (fun n => Return ["10.0.0." +:+ n; "edge" +:+ n])
              ["1"; "2"; "3"; "4"; "5"; "6"; "7"; "8"; "9"; "10"]);
  Fleet.remote_of_ip _ := router_ok;
  Fleet.strftime _ := "20240101";
  Fleet.ruta_respaldo_principal := "/srv/bk";
  Fleet.rotator_outcome := Return tt
|}.

(** Both exports are listed; the backup directory refuses new files. *)
Definition router_sin_escritura : Remote := {|
  connect_outcome := Return tt;
  open_sftp_outcome := Return tt;
  listdir_outcome _ := Return ["latest.backup"; "latest.rsc"];
  local_open_outcome _ := Raise PermissionError;
  transfer_outcome _ _ := Return tt
|}.

(** One router; the working directory cannot be listed when the rotator
    is called. *)
Definition mundo_sin_listado : Fleet.World := {|
  Fleet.rt_csv := Return [Return ["10.0.0.1"; "edge1"]];
  Fleet.remote_of_ip _ := router_ok;
  Fleet.strftime _ := "20240101";
  Fleet.ruta_respaldo_principal := "/srv/bk";
  Fleet.rotator_outcome := Raise PermissionError
|}.

End Samples.

(** ** What the events of a fetch say *)

Module FetcherLog.

(** What each event of one call of [descargar_archivos] tells about the
    router and the local file system, before the final close of the
    session: a local file is opened only when [get] could open it, it is
    complete and its download logged only when that [get] returned, a
    warning is logged only for an allow-listed file missing from the
    listing, and an error is logged only for an exception that was
    raised. *)
Definition justified (r : Remote)
    (router_name backup_path current_time : string) (ev : event) : Prop :=
  let localpath_of := fun archivo =>
    os_path_join backup_path
      (Fetcher.nuevo_nombre_archivo router_name current_time archivo) in
  let listed := fun archivo (b : bool) =>
    In archivo Fetcher.archivos_deseados
    /\ exists l, listdir_outcome r "." = Return l
                 /\ Py.str_in archivo l = b in
  let failed := fun archivo e =>
    listed archivo true
    /\ get_outcome r ("/" +:+ archivo) (localpath_of archivo) = Raise e in
  match ev with
  | EvSessionOpen _ | EvSessionClose => False
  | EvSftpOpen => open_sftp_outcome r = Return tt
  | EvSftpClose => open_sftp_outcome r = Return tt
  | EvListdir p => p = "." /\ open_sftp_outcome r = Return tt
  | EvGet remotepath localpath =>
      exists archivo,
        listed archivo true
        /\ remotepath = "/" +:+ archivo /\ localpath = localpath_of archivo
  | EvLocalOpen localpath =>
      exists archivo,
        listed archivo true
        /\ localpath = localpath_of archivo
        /\ local_open_outcome r localpath = Return tt
  | EvWritten localpath =>
      exists archivo,
        listed archivo true
        /\ localpath = localpath_of archivo
        /\ get_outcome r ("/" +:+ archivo) localpath = Return tt
  | EvLog (LogDownloaded archivo n) =>
      n = router_name
      /\ listed archivo true
      /\ get_outcome r ("/" +:+ archivo) (localpath_of archivo) = Return tt
  | EvLog (LogMissing archivo n) => n = router_name /\ listed archivo false
  | EvLog (LogGetNotFound e) =>
      e = FileNotFoundError /\ exists archivo, failed archivo e
  | EvLog (LogGetPermission e) =>
      e = PermissionError /\ exists archivo, failed archivo e
  | EvLog (LogGetSSH archivo e) => is_SSHException e = true /\ failed archivo e
  | EvLog (LogGetOS archivo e) => e = OSError /\ failed archivo e
  | EvLog (LogFetchSSH n e) =>
      n = router_name /\ is_SSHException e = true
      /\ (open_sftp_outcome r = Raise e \/ listdir_outcome r "." = Raise e)
  | EvLog (LogFetchOS n e) =>
      n = router_name /\ is_OSError e = true
      /\ (open_sftp_outcome r = Raise e \/ listdir_outcome r "." = Raise e)
  | EvLog _ => False
  end.

End FetcherLog.

(* ===================================================================== *)
(** * Part II. Properties *)
(* ===================================================================== *)

(** ** Strings *)

Example replace_all_occurrences :
  Py.replace "a.rsc.rsc" ".rsc" "-old.rsc" = "a-old.rsc-old.rsc".
Proof. reflexivity. Qed.

Example replace_non_overlapping : Py.replace "aaa" "aa" "b" = "ba".
Proof. reflexivity. Qed.

Example replace_empty_old : Py.replace "abc" "" "-" = "-a-b-c-".
Proof. reflexivity. Qed.

Example endswith_ex :
  Py.endswith "foo-old.rsc" ".rsc" = true /\ Py.endswith "rsc" ".rsc" = false.
Proof. split; reflexivity. Qed.


Section StringFacts.

Implicit Types s t u w p old new : string.

Lemma app_cons_str c s t : String c s +:+ t = String c (s +:+ t).
Proof. reflexivity. Qed.

Lemma app_nil_l_str s : "" +:+ s = s.
Proof. reflexivity. Qed.

Lemma app_nil_r_str s : s +:+ "" = s.
Proof.
  induction s as [|c s IH]; [done | by rewrite app_cons_str, IH].
Qed.

Lemma app_assoc_str s t u : (s +:+ t) +:+ u = s +:+ (t +:+ u).
Proof.
  induction s as [|c s IH]; [done | by rewrite !app_cons_str, IH].
Qed.

Lemma length_app_str s t :
  String.length (s +:+ t) = String.length s + String.length t.
Proof.
  induction s as [|c s IH]; [done |].
  rewrite app_cons_str. simpl. by rewrite IH.
Qed.

Lemma startswith_nil s : Py.startswith s "" = true.
Proof. by destruct s. Qed.

Lemma startswith_cons c s d p :
  Py.startswith (String c s) (String d p)
  = Ascii.eqb d c && Py.startswith s p.
Proof. done. Qed.

Lemma startswith_spec s p :
  Py.startswith s p = true <-> exists t, s = p +:+ t.
Proof.
  revert s. induction p as [|d p IH]; intros s.
  - rewrite startswith_nil. split; [by exists s | done].
  - destruct s as [|c s].
    + split; [done | by intros [t Ht]].
    + rewrite startswith_cons, andb_true_iff, Ascii.eqb_eq, IH.
      split.
      * intros [-> [t ->]]. by exists t.
      * intros [t Ht]. rewrite app_cons_str in Ht.
        injection Ht as -> ->. eauto.
Qed.

Lemma startswith_length s p :
  Py.startswith s p = true -> String.length p <= String.length s.
Proof.
  intros [t ->]%startswith_spec. rewrite length_app_str. lia.
Qed.

Lemma startswith_app_l s p w :
  Py.startswith s p = true -> Py.startswith (s +:+ w) p = true.
Proof.
  intros [t ->]%startswith_spec. apply startswith_spec.
  exists (t +:+ w). apply app_assoc_str.
Qed.

Lemma slice_from_app s t : Py.slice_from (String.length s) (s +:+ t) = t.
Proof.
  induction s as [|c s IH]; [by destruct t |].
  by rewrite app_cons_str.
Qed.

Lemma slice_split n s : Py.slice_to n s +:+ Py.slice_from n s = s.
Proof.
  revert s. induction n as [|n IH]; intros [|c s]; simpl; try done.
  by rewrite app_cons_str, IH.
Qed.

Lemma endswith_spec s suf :
  Py.endswith s suf = true <-> exists t, s = t +:+ suf.
Proof.
  unfold Py.endswith. rewrite andb_true_iff, Nat.leb_le, String.eqb_eq.
  split.
  - intros [_ <-]. eexists. symmetry. apply slice_split.
  - intros [t ->]. rewrite length_app_str. split; [lia |].
    replace (String.length t + String.length suf - String.length suf)
      with (String.length t) by lia.
    apply slice_from_app.
Qed.

Lemma startswith_app_inv u w p :
  Py.startswith (u +:+ w) p = true ->
  Py.startswith u p = true
  \/ (String.length u < String.length p
      /\ Py.startswith w (Py.slice_from (String.length u) p) = true).
Proof.
  revert p. induction u as [|c u IH]; intros p H.
  - destruct p as [|d p]; [by left |]. right. simpl. split; [lia | done].
  - destruct p as [|d p]; [by left |].
    rewrite app_cons_str, startswith_cons in H.
    apply andb_true_iff in H as [Hc H].
    destruct (IH _ H) as [Hu | [Hlt Hw]].
    + left. rewrite startswith_cons, Hc, Hu. done.
    + right. simpl. split; [lia | done].
Qed.

Lemma no_straddle_sound old w u :
  Py.no_straddle old w = true -> u <> "" ->
  Py.startswith (u +:+ w) old = true -> Py.startswith u old = true.
Proof.
  intros Hns Hu H.
  destruct (startswith_app_inv _ _ _ H) as [? | [Hlt Hw]]; [done |].
  unfold Py.no_straddle in Hns. rewrite forallb_forall in Hns.
  specialize (Hns (String.length u)). rewrite Hw in Hns.
  assert (In (String.length u) (seq 1 (String.length old - 1))) as Hin.
  { apply in_seq. destruct u; [done | simpl in *; lia]. }
  by apply Hns in Hin.
Qed.

Lemma replace_scan_nil skip old new : Py.replace_scan skip "" old new = "".
Proof. by destruct skip. Qed.

(** The scan of [u +:+ w] is the scan of [u] followed by the scan of [w]
    when no occurrence of [old] straddles the seam. *)
Lemma replace_scan_app old new w u skip :
  Py.no_straddle old w = true -> skip <= String.length u ->
  Py.replace_scan skip (u +:+ w) old new
  = Py.replace_scan skip u old new +:+ Py.replace_scan 0 w old new.
Proof.
  intros Hns. revert skip. induction u as [|c u IH]; intros skip Hskip.
  - simpl in Hskip. by replace skip with 0 by lia.
  - rewrite app_cons_str. destruct skip as [|k].
    + cbn [Py.replace_scan]. rewrite <- app_cons_str.
      destruct (Py.startswith (String c u) old) eqn:Hu.
      * rewrite (startswith_app_l _ _ w Hu).
        apply startswith_length in Hu. simpl in Hu.
        rewrite IH by lia. by rewrite app_assoc_str.
      * destruct (Py.startswith (String c u +:+ w) old) eqn:Huw.
        { apply no_straddle_sound in Huw; [congruence | done | done]. }
        by rewrite IH, app_cons_str by (simpl; lia).
    + cbn [Py.replace_scan]. apply IH. simpl in Hskip. lia.
Qed.

Lemma replace_scan_absent s old new :
  Py.contains s old = false -> Py.replace_scan 0 s old new = s.
Proof.
  induction s as [|c s IH]; [done |].
  cbn [Py.contains Py.replace_scan].
  intros [H1 H2]%orb_false_iff. rewrite H1. by rewrite IH.
Qed.

End StringFacts.

(** ** Retention rotator *)

Section RotatorFacts.

Variable ctime_renamed : Q -> Q -> Q.
Variable ahora : Q.

Local Abbreviation rotar_archivo := (Rotator.rotar_archivo ctime_renamed ahora).
Local Abbreviation rotar := (Rotator.rotar ctime_renamed ahora).
Local Abbreviation debe_rotar := (Rotator.debe_rotar ahora).
Local Abbreviation edad := (Rotator.antiguedad_dias ahora).
Local Abbreviation es_candidato := Rotator.es_candidato.
Local Abbreviation nuevo_nombre := Rotator.nuevo_nombre.
Local Abbreviation paso := (Rotator.paso ctime_renamed ahora).
Local Abbreviation estable := (Rotator.estable ahora).
Local Abbreviation par := (fun n : string => (n, Rotator.nuevo_nombre n)).

Implicit Types (st : fs_state) (d : gmap string Q) (n : string) (t : Q).

Lemma Qgtb_lt x y : Qgtb x y = true <-> (y < x)%Q.
Proof.
  unfold Qgtb. rewrite negb_true_iff, <- not_true_iff_false, Qle_bool_iff.
  split; [apply Qnot_le_lt | apply Qlt_not_le].
Qed.

Lemma Qgtb_le x y : Qgtb x y = false <-> (x <= y)%Q.
Proof. unfold Qgtb. by rewrite negb_false_iff, Qle_bool_iff. Qed.

(** *** The new name *)

Lemma nuevo_nombre_rsc s :
  nuevo_nombre (s +:+ ".rsc") = nuevo_nombre s +:+ "-old.rsc".
Proof.
  unfold nuevo_nombre, Py.replace.
  rewrite (replace_scan_app ".rsc" "-old.rsc" ".rsc") by (done || lia).
  by rewrite (replace_scan_app ".backup" "-old.backup" "-old.rsc")
    by (done || lia).
Qed.

Lemma nuevo_nombre_backup s :
  nuevo_nombre (s +:+ ".backup") = nuevo_nombre s +:+ "-old.backup".
Proof.
  unfold nuevo_nombre, Py.replace.
  rewrite (replace_scan_app ".rsc" "-old.rsc" ".backup") by (done || lia).
  by rewrite (replace_scan_app ".backup" "-old.backup" ".backup")
    by (done || lia).
Qed.

Lemma nuevo_nombre_absent s :
  Py.contains s ".rsc" = false -> Py.contains s ".backup" = false ->
  nuevo_nombre s = s.
Proof.
  intros H1 H2. unfold nuevo_nombre, Py.replace.
  by rewrite (replace_scan_absent _ _ _ H1), (replace_scan_absent _ _ _ H2).
Qed.

Lemma es_candidato_ext n :
  es_candidato n = true ->
  exists s, n = s +:+ ".rsc" \/ n = s +:+ ".backup".
Proof.
  unfold es_candidato, Py.endswith_any. simpl.
  intros [H _]%andb_true_iff.
  apply orb_true_iff in H as [H | H].
  - apply endswith_spec in H as [s ->]. eauto.
  - rewrite orb_false_r in H. apply endswith_spec in H as [s ->]. eauto.
Qed.

Lemma nuevo_nombre_old n :
  es_candidato n = true ->
  Py.endswith_any (nuevo_nombre n) ["-old.rsc"; "-old.backup"] = true.
Proof.
  intros [s [-> | ->]]%es_candidato_ext; unfold Py.endswith_any; simpl.
  - rewrite nuevo_nombre_rsc.
    rewrite (proj2 (endswith_spec _ "-old.rsc")); [done | eauto].
  - rewrite nuevo_nombre_backup.
    rewrite (proj2 (endswith_spec _ "-old.backup")); [| eauto].
    by rewrite orb_true_r.
Qed.

Lemma nuevo_nombre_no_candidato n :
  es_candidato n = true -> es_candidato (nuevo_nombre n) = false.
Proof.
  intros H. apply nuevo_nombre_old in H.
  unfold es_candidato. rewrite H. by rewrite andb_false_r.
Qed.

Lemma nuevo_nombre_neq n m :
  es_candidato n = true -> es_candidato m = true -> nuevo_nombre n <> m.
Proof.
  intros Hn Hm <-. apply nuevo_nombre_no_candidato in Hn. congruence.
Qed.

(** *** One iteration *)

Lemma rotar_archivo_skip n st :
  es_candidato n = false -> rotar_archivo n st = (st, Return tt).
Proof. intros H. unfold Rotator.rotar_archivo, try_except. by rewrite H. Qed.

Lemma rotar_archivo_missing n st :
  es_candidato n = true -> dir st !! n = None ->
  rotar_archivo n st
  = (FsState (dir st) (renombres st)
             (fs_log st ++ [LogRenameNotFound FileNotFoundError]),
     Return tt).
Proof.
  intros H Hn. unfold Rotator.rotar_archivo, try_except. rewrite H.
  unfold mbind, M_bind, bind, Rotator.os_path_getctime. by rewrite Hn.
Qed.

Lemma rotar_archivo_young n t st :
  es_candidato n = true -> dir st !! n = Some t ->
  Qgtb (edad t) DIAS_MAXIMOS = false ->
  rotar_archivo n st = (st, Return tt).
Proof.
  intros H Hn Ht. unfold Rotator.rotar_archivo, try_except. rewrite H.
  unfold mbind, M_bind, bind, Rotator.os_path_getctime. rewrite Hn.
  by rewrite Ht.
Qed.

Lemma rotar_archivo_old n t st :
  es_candidato n = true -> dir st !! n = Some t ->
  Qgtb (edad t) DIAS_MAXIMOS = true ->
  rotar_archivo n st
  = (FsState (<[nuevo_nombre n := ctime_renamed t ahora]> (delete n (dir st)))
             (renombres st ++ [(n, nuevo_nombre n)])
             (fs_log st ++ [LogRenamed n (nuevo_nombre n)]),
     Return tt).
Proof.
  intros H Hn Ht. unfold Rotator.rotar_archivo, try_except. rewrite H.
  unfold mbind, M_bind, bind, Rotator.os_path_getctime. rewrite Hn.
  rewrite Ht. unfold Rotator.os_rename. by rewrite Hn.
Qed.

Lemma rotar_archivo_paso n st :
  exists st', rotar_archivo n st = (st', Return tt) /\ paso n st st'.
Proof.
  destruct (es_candidato n) eqn:Hc.
  - destruct (dir st !! n) as [t|] eqn:Hn.
    + destruct (Qgtb (edad t) DIAS_MAXIMOS) eqn:Ht.
      * eexists. split; [by eapply rotar_archivo_old |].
        by eapply Rotator.paso_rename.
      * exists st. split; [by eapply rotar_archivo_young |].
        apply Rotator.paso_skip; [| eauto].
        unfold Rotator.debe_rotar. by rewrite Hc, Hn, Ht.
    + eexists. split; [by eapply rotar_archivo_missing |].
      by apply Rotator.paso_missing.
  - exists st. split; [by apply rotar_archivo_skip |].
    apply Rotator.paso_skip; [| congruence].
    unfold Rotator.debe_rotar. by rewrite Hc.
Qed.

(** *** The loop *)

Lemma for_each_cons {S A} (x : A) (l : list A) (body : A -> M S unit) s :
  for_each (x :: l) body s
  = match body x s with
    | (s', Return _) => for_each l body s'
    | (s', Raise e) => (s', Raise e)
    end.
Proof. reflexivity. Qed.

(** Invariant rule for the loop: it always returns, and an invariant on
    (entries still to visit, state) kept by every iteration holds at the
    end. *)
Lemma rotar_loop_inv (I : list string -> fs_state -> Prop) :
  (forall x l st st', I (x :: l) st -> paso x st st' -> I l st') ->
  forall l st, I l st ->
    exists st', for_each l rotar_archivo st = (st', Return tt) /\ I [] st'.
Proof.
  intros Hstep l. induction l as [|x l IH]; intros st HI.
  - by exists st.
  - rewrite for_each_cons.
    destruct (rotar_archivo_paso x st) as (st1 & -> & Hp).
    apply IH. by eapply Hstep.
Qed.


Lemma elem_of_os_listdir d n : n ∈ Rotator.os_listdir d <-> is_Some (d !! n).
Proof.
  unfold Rotator.os_listdir. rewrite list_elem_of_fmap. split.
  - intros [[k t] [-> H%elem_of_map_to_list]]. by exists t.
  - intros [t H]. exists (n, t). by rewrite elem_of_map_to_list.
Qed.

Lemma NoDup_os_listdir d : NoDup (Rotator.os_listdir d).
Proof. apply NoDup_fst_map_to_list. Qed.

Lemma loop_estable l st :
  estable (dir st) -> (forall n, n ∈ l -> is_Some (dir st !! n)) ->
  for_each l rotar_archivo st = (st, Return tt).
Proof.
  intros Hst. induction l as [|x l IH]; intros Hl; [done |].
  rewrite for_each_cons.
  assert (rotar_archivo x st = (st, Return tt)) as ->.
  { destruct (Hl x) as [t Ht]; [left |].
    specialize (Hst x). unfold Rotator.debe_rotar in Hst. rewrite Ht in Hst.
    destruct (es_candidato x) eqn:Hc.
    - by eapply rotar_archivo_young.
    - by apply rotar_archivo_skip. }
  apply IH. intros n Hn. apply Hl. by right.
Qed.

(** After a run nothing is due any more. *)
Lemma rotar_estable d : estable (dir (rotar (fs_init d))).
Proof.
  pose (I := fun (l : list string) st =>
    forall n t, dir st !! n = Some t -> es_candidato n = true ->
      n ∈ l \/ Qgtb (edad t) DIAS_MAXIMOS = false).
  destruct (rotar_loop_inv I) with (l := Rotator.os_listdir d)
    (st := fs_init d) as (st' & Hrun & Hend).
  - intros x l st st' HI Hp n t Hn Hc. destruct Hp as [Hd _ | | t' Hx Hxt Ht'].
    + destruct (HI n t Hn Hc) as [[-> | Hin]%elem_of_cons | ?]; auto.
      right. unfold Rotator.debe_rotar in Hd. by rewrite Hc, Hn in Hd.
    + simpl in Hn.
      destruct (HI n t Hn Hc) as [[-> | Hin]%elem_of_cons | ?]; auto.
      congruence.
    + simpl in Hn.
      assert (nuevo_nombre x <> n) by by apply nuevo_nombre_neq.
      rewrite lookup_insert_ne, lookup_delete_Some in Hn by done.
      destruct Hn as [Hne Hn].
      destruct (HI n t Hn Hc) as [[-> | Hin]%elem_of_cons | ?]; auto.
      done.
  - intros n t Hn _. left. apply elem_of_os_listdir. by exists t.
  - unfold Rotator.rotar, Rotator.renombrar_backups_antiguos.
    simpl. rewrite Hrun. simpl. intros n.
    unfold Rotator.debe_rotar.
    destruct (es_candidato n) eqn:Hc; [| done].
    destruct (dir st' !! n) as [t|] eqn:Hn; [| done].
    destruct (Hend n t Hn Hc) as [Hin | ?]; [| done].
    by apply elem_of_nil in Hin.
Qed.

(** The renames of a run, in order: the due entries of the listing. *)
Lemma rotar_renombres d :
  renombres (rotar (fs_init d))
  = map par (List.filter (debe_rotar d) (Rotator.os_listdir d)).
Proof.
  pose (I := fun (l : list string) st =>
    NoDup l
    /\ (forall n, n ∈ l -> es_candidato n = true -> dir st !! n = d !! n)
    /\ renombres st ++ map par (List.filter (debe_rotar d) l)
       = map par (List.filter (debe_rotar d) (Rotator.os_listdir d))).
  destruct (rotar_loop_inv I) with (l := Rotator.os_listdir d)
    (st := fs_init d) as (st' & Hrun & _ & _ & Hend).
  - intros x l st st' (Hnd & Hsame & Hren) Hp.
    apply NoDup_cons in Hnd as [Hx Hnd].
    assert (forall n, n ∈ l -> es_candidato n = true ->
              dir st !! n = d !! n) as Hsame'.
    { intros n Hn. apply Hsame. by right. }
    assert (es_candidato x = true -> dir st !! x = d !! x) as Hsx.
    { apply Hsame. by left. }
    simpl in Hren.
    destruct Hp as [Hd _ | Hc Hnone | t Hc Hxt Ht]; (split; [done |]).
    + split; [done |].
      assert (debe_rotar d x = false) as Hd'.
      { unfold Rotator.debe_rotar in *.
        destruct (es_candidato x); [| done]. by rewrite <- Hsx. }
      by rewrite Hd' in Hren.
    + split; [done |]. simpl.
      assert (debe_rotar d x = false) as Hd'.
      { unfold Rotator.debe_rotar. by rewrite Hc, <- Hsx, Hnone. }
      by rewrite Hd' in Hren.
    + simpl. split.
      * intros n Hn Hcn.
        assert (nuevo_nombre x <> n) by by apply nuevo_nombre_neq.
        assert (x <> n) by (intros ->; done).
        rewrite lookup_insert_ne, lookup_delete_ne by done. auto.
      * assert (debe_rotar d x = true) as Hd'.
        { unfold Rotator.debe_rotar. by rewrite Hc, <- Hsx, Hxt. }
        rewrite Hd' in Hren. simpl in Hren.
        by rewrite <- app_assoc.
  - split; [apply NoDup_os_listdir |]. by split.
  - unfold Rotator.rotar, Rotator.renombrar_backups_antiguos.
    simpl. rewrite Hrun. simpl. simpl in Hend.
    by rewrite app_nil_r in Hend.
Qed.

Lemma elem_of_rotar_renombres d src dst :
  (src, dst) ∈ renombres (rotar (fs_init d))
  <-> debe_rotar d src = true /\ dst = nuevo_nombre src.
Proof.
  rewrite rotar_renombres, list_elem_of_In, in_map_iff. split.
  - intros (n & [= <- <-] & [Hin Hd]%filter_In). done.
  - intros [Hd ->]. exists src. split; [done |].
    apply filter_In. split; [| done].
    apply list_elem_of_In, elem_of_os_listdir.
    unfold Rotator.debe_rotar in Hd.
    destruct (es_candidato src); [| done].
    destruct (d !! src); [eauto | done].
Qed.

(** What a run leaves under the name of a candidate entry. *)
Lemma rotar_lookup_candidato d n t :
  d !! n = Some t -> es_candidato n = true ->
  dir (rotar (fs_init d)) !! n
  = if Qgtb (edad t) DIAS_MAXIMOS then None else Some t.
Proof.
  intros Hn Hc.
  pose (I := fun (l : list string) st =>
    (n ∈ l /\ dir st !! n = Some t)
    \/ dir st !! n = if Qgtb (edad t) DIAS_MAXIMOS then None else Some t).
  destruct (rotar_loop_inv I) with (l := Rotator.os_listdir d)
    (st := fs_init d) as (st' & Hrun & Hend).
  - intros x l st st' HI Hp. destruct (decide (x = n)) as [-> | Hne].
    + right. destruct HI as [[_ Hst] | Hst].
      * destruct Hp as [Hd _ | ? Hnone | t' _ Hxt Ht'].
        -- unfold Rotator.debe_rotar in Hd. rewrite Hc, Hst in Hd.
           simpl in Hd. by rewrite Hd.
        -- congruence.
        -- simpl. assert (t' = t) as -> by congruence. rewrite Ht'.
           assert (nuevo_nombre n <> n) by by apply nuevo_nombre_neq.
           rewrite lookup_insert_ne by done. apply lookup_delete_eq.
      * destruct Hp as [| | t' _ Hxt Ht']; [done | done |].
        rewrite Hxt in Hst. destruct (Qgtb (edad t) DIAS_MAXIMOS) eqn:E;
          [done |]. congruence.
    + assert (dir st' !! n = dir st !! n) as Heq.
      { destruct Hp as [| | t' Hcx _ _]; [done | done |]. simpl.
        assert (nuevo_nombre x <> n) by by apply nuevo_nombre_neq.
        by rewrite lookup_insert_ne, lookup_delete_ne. }
      unfold I. rewrite Heq.
      destruct HI as [[[-> | Hin]%elem_of_cons Hst] | Hst]; auto.
      done.
  - left. split; [| done]. apply elem_of_os_listdir. eauto.
  - unfold Rotator.rotar, Rotator.renombrar_backups_antiguos.
    simpl. rewrite Hrun. simpl.
    destruct Hend as [[Hin _] | ?]; [| done].
    by apply elem_of_nil in Hin.
Qed.

(** The new name of a renamed entry is present after the run. *)
Lemma rotar_lookup_nuevo d n :
  debe_rotar d n = true ->
  is_Some (dir (rotar (fs_init d)) !! nuevo_nombre n).
Proof.
  intros Hd. unfold Rotator.debe_rotar in Hd.
  apply andb_true_iff in Hd as [Hc Hd].
  destruct (d !! n) as [t|] eqn:Hn; [| done].
  pose (I := fun (l : list string) st =>
    (n ∈ l /\ dir st !! n = Some t)
    \/ is_Some (dir st !! nuevo_nombre n)).
  destruct (rotar_loop_inv I) with (l := Rotator.os_listdir d)
    (st := fs_init d) as (st' & Hrun & Hend).
  - intros x l st st' HI Hp. destruct HI as [[Hin Hst] | Hst].
    + destruct (decide (x = n)) as [-> | Hne].
      * right. destruct Hp as [Hd' _ | ? Hnone | t' _ Hxt Ht'].
        -- unfold Rotator.debe_rotar in Hd'. rewrite Hc, Hst in Hd'.
           simpl in Hd'. congruence.
        -- congruence.
        -- simpl. rewrite lookup_insert_eq. eauto.
      * left. apply elem_of_cons in Hin as [-> | Hin]; [done |].
        split; [done |].
        destruct Hp as [| | t' Hcx _ _]; [done | done |]. simpl.
        assert (nuevo_nombre x <> n) by by apply nuevo_nombre_neq.
        by rewrite lookup_insert_ne, lookup_delete_ne.
    + right. destruct Hp as [| | t' Hcx _ _]; [done | done |]. simpl.
      destruct (decide (nuevo_nombre x = nuevo_nombre n)) as [-> | Hne].
      * rewrite lookup_insert_eq. eauto.
      * rewrite lookup_insert_ne by done.
        assert (x <> nuevo_nombre n).
        { intros ->. apply nuevo_nombre_no_candidato in Hc. congruence. }
        by rewrite lookup_delete_ne.
  - left. split; [| done]. apply elem_of_os_listdir. eauto.
  - unfold Rotator.rotar, Rotator.renombrar_backups_antiguos.
    simpl. rewrite Hrun. simpl.
    destruct Hend as [[Hin _] | ?]; [| done].
    by apply elem_of_nil in Hin.
Qed.

End RotatorFacts.

(** *** Idempotence and the age threshold *)

(** C2. Running the rotator a second time on the directory the first run
    left performs no rename: the second run returns with the state exactly
    as it found it (no rename, no log line, the same directory).  The
    reason is that every name the first run produced ends with a
    superseded extension, and such a name is never a candidate; so the
    entries the first run renamed are not renamed again at any later
    clock reading [ahora'] either. *)
Theorem rotation_idempotent
    (ctime_renamed : Q -> Q -> Q) (ahora : Q) (d : gmap string Q) :
  let st1 := Rotator.rotar ctime_renamed ahora (fs_init d) in
  Rotator.renombrar_backups_antiguos ctime_renamed ahora (fs_init (dir st1))
    = (fs_init (dir st1), Return tt)
  /\ renombres (Rotator.rotar ctime_renamed ahora (fs_init (dir st1))) = []
  /\ (forall n,
        Py.endswith_any n ["-old.rsc"; "-old.backup"] = true ->
        Rotator.es_candidato n = false)
  /\ (forall src dst,
        (src, dst) ∈ renombres st1 ->
        Py.endswith_any dst ["-old.rsc"; "-old.backup"] = true)
  /\ (forall ahora' src dst dst',
        (src, dst) ∈ renombres st1 ->
        (dst, dst') ∉
          renombres (Rotator.rotar ctime_renamed ahora' (fs_init (dir st1)))).
Proof.
  intros st1.
  assert (Rotator.renombrar_backups_antiguos ctime_renamed ahora
            (fs_init (dir st1)) = (fs_init (dir st1), Return tt)) as Hrun.
  { unfold Rotator.renombrar_backups_antiguos. apply loop_estable.
    - apply rotar_estable.
    - intros n Hn. by apply elem_of_os_listdir. }
  assert (forall n,
            Py.endswith_any n ["-old.rsc"; "-old.backup"] = true ->
            Rotator.es_candidato n = false) as Hold.
  { intros n Hn. unfold Rotator.es_candidato. rewrite Hn.
    apply andb_false_r. }
  assert (forall src dst, (src, dst) ∈ renombres st1 ->
            Py.endswith_any dst ["-old.rsc"; "-old.backup"] = true) as Hdst.
  { intros src dst [Hd ->]%elem_of_rotar_renombres.
    apply nuevo_nombre_old. unfold Rotator.debe_rotar in Hd.
    by apply andb_true_iff in Hd as [? _]. }
  repeat split; try done.
  - unfold Rotator.rotar. by rewrite Hrun.
  - intros ahora' src dst dst' Hin [Hd _]%elem_of_rotar_renombres.
    apply Hdst, Hold in Hin. unfold Rotator.debe_rotar in Hd.
    by rewrite Hin in Hd.
Qed.

(** C3. The age test is a strict greater-than.  For a candidate entry [n]
    of the directory with creation time [t]: the run renames it (and the
    old name is gone) exactly when its age in days exceeds [DIAS_MAXIMOS];
    it is left alone exactly when its age is at most [DIAS_MAXIMOS]; so an
    entry aged exactly [DIAS_MAXIMOS] days is kept and one aged one day
    more is renamed. *)
Theorem age_threshold_strict
    (ctime_renamed : Q -> Q -> Q) (ahora : Q) (d : gmap string Q)
    (n : string) (t : Q) :
  d !! n = Some t ->
  Rotator.es_candidato n = true ->
  let st := Rotator.rotar ctime_renamed ahora (fs_init d) in
  let rotated :=
    (n, Rotator.nuevo_nombre n) ∈ renombres st /\ dir st !! n = None in
  let kept :=
    (forall dst, (n, dst) ∉ renombres st) /\ dir st !! n = Some t in
  (rotated <-> (DIAS_MAXIMOS < Rotator.antiguedad_dias ahora t)%Q)
  /\ (kept <-> (Rotator.antiguedad_dias ahora t <= DIAS_MAXIMOS)%Q)
  /\ ((Rotator.antiguedad_dias ahora t == DIAS_MAXIMOS)%Q -> kept)
  /\ ((Rotator.antiguedad_dias ahora t == DIAS_MAXIMOS + 1)%Q -> rotated).
Proof.
  intros Hn Hc st rotated kept.
  pose proof (rotar_lookup_candidato ctime_renamed ahora d n t Hn Hc) as Hl.
  fold st in Hl.
  assert (Rotator.debe_rotar ahora d n
          = Qgtb (Rotator.antiguedad_dias ahora t) DIAS_MAXIMOS) as Hd.
  { unfold Rotator.debe_rotar. by rewrite Hc, Hn. }
  assert (rotated <-> (DIAS_MAXIMOS < Rotator.antiguedad_dias ahora t)%Q)
    as Hrot.
  { unfold rotated, st. rewrite elem_of_rotar_renombres, Hd, <- Qgtb_lt.
    fold st. rewrite Hl.
    destruct (Qgtb (Rotator.antiguedad_dias ahora t) DIAS_MAXIMOS).
    - by split.
    - split; [by intros [[? _] _] | done]. }
  assert (kept <-> (Rotator.antiguedad_dias ahora t <= DIAS_MAXIMOS)%Q)
    as Hkept.
  { unfold kept. rewrite <- Qgtb_le, Hl. split.
    - intros [_ H].
      by destruct (Qgtb (Rotator.antiguedad_dias ahora t) DIAS_MAXIMOS).
    - intros E. rewrite E. split; [| done].
      intros dst [Hd' _]%elem_of_rotar_renombres. congruence. }
  split; [exact Hrot |]. split; [exact Hkept |]. split.
  - intros E. apply Hkept. rewrite E. apply Qle_refl.
  - intros E. apply Hrot. rewrite E. done.
Qed.

(** ** File fetcher *)

Section FetcherFacts.

Import Fetcher.

Implicit Types (Q : event -> Prop) (C : exn -> Prop).

Lemma behaves_ret {A} Q C (V : A -> Prop) (a : A) :
  V a -> behaves Q C V (ret a).
Proof.
  intros Ha tr. exists [], (Return a). rewrite app_nil_r. by repeat split.
Qed.

Lemma behaves_raise {A} Q C (V : A -> Prop) e :
  C e -> behaves Q C V (raise e).
Proof.
  intros He tr. exists [], (Raise e). rewrite app_nil_r. by repeat split.
Qed.

Lemma behaves_call {A} Q C (V : A -> Prop) (r : result A) :
  match r with Return a => V a | Raise e => C e end ->
  behaves Q C V (call r).
Proof.
  intros Hr tr. exists [], r. rewrite app_nil_r. by repeat split.
Qed.

Lemma behaves_emit Q C ev : Q ev -> behaves Q C (fun _ => True) (emit ev).
Proof.
  intros Hev tr. exists [ev], (Return tt).
  repeat split; by apply Forall_singleton.
Qed.

Lemma behaves_weaken {A} Q Q' C C' (V V' : A -> Prop) m :
  (forall ev, Q ev -> Q' ev) -> (forall e, C e -> C' e) ->
  (forall a, V a -> V' a) ->
  behaves Q C V m -> behaves Q' C' V' m.
Proof.
  intros HQ HC HV Hm tr.
  destruct (Hm tr) as (tr' & res & -> & Htr & Hres).
  exists tr', res. repeat split.
  - eapply Forall_impl; eauto.
  - destruct res; auto.
Qed.

Lemma behaves_bind {A B} Q C (V : A -> Prop) (W : B -> Prop) m f :
  behaves Q C V m -> (forall a, V a -> behaves Q C W (f a)) ->
  behaves Q C W (m ≫= f).
Proof.
  intros Hm Hf tr. unfold mbind, M_bind, bind.
  destruct (Hm tr) as (tr1 & res & -> & Htr1 & Hres).
  destruct res as [a | e].
  - destruct (Hf a Hres (tr ++ tr1)) as (tr2 & res2 & -> & Htr2 & Hres2).
    exists (tr1 ++ tr2), res2. rewrite app_assoc.
    repeat split; [by apply Forall_app | done].
  - exists tr1, (Raise e). by repeat split.
Qed.

Lemma behaves_try_except {A} Q C0 C (V : A -> Prop) m h :
  behaves Q C0 V m ->
  (forall e, C0 e ->
     match h e with Some k => behaves Q C V k | None => C e end) ->
  behaves Q C V (try_except m h).
Proof.
  intros Hm Hh tr. unfold try_except.
  destruct (Hm tr) as (tr1 & res & -> & Htr1 & Hres).
  destruct res as [a | e].
  - exists tr1, (Return a). by repeat split.
  - specialize (Hh e Hres). destruct (h e) as [k |].
    + destruct (Hh (tr ++ tr1)) as (tr2 & res2 & -> & Htr2 & Hres2).
      exists (tr1 ++ tr2), res2. rewrite app_assoc.
      repeat split; [by apply Forall_app | done].
    + exists tr1, (Raise e). by repeat split.
Qed.

Lemma behaves_try_finally {A} Q C (V : A -> Prop) m f :
  behaves Q C V m -> behaves Q C (fun _ => True) f ->
  behaves Q C V (try_finally m f).
Proof.
  intros Hm Hf tr. unfold try_finally.
  destruct (Hm tr) as (tr1 & res & -> & Htr1 & Hres).
  destruct (Hf (tr ++ tr1)) as (tr2 & res2 & -> & Htr2 & Hres2).
  destruct res2 as [[] | e2].
  - exists (tr1 ++ tr2), res. rewrite app_assoc.
    repeat split; [by apply Forall_app | done].
  - exists (tr1 ++ tr2), (Raise e2). rewrite app_assoc.
    repeat split; [by apply Forall_app | done].
Qed.

Lemma behaves_for_each {A} Q C (l : list A) body :
  (forall x, In x l -> behaves Q C (fun _ => True) (body x)) ->
  behaves Q C (fun _ => True) (for_each l body).
Proof.
  induction l as [|x l IH]; intros Hb; [by apply behaves_ret |].
  intros tr. cbn [for_each]. unfold bind.
  destruct (Hb x (or_introl eq_refl) tr) as (tr1 & res & -> & Htr1 & Hres).
  destruct res as [[] | e].
  - destruct (IH (fun y Hy => Hb y (or_intror Hy)) (tr ++ tr1))
      as (tr2 & res2 & -> & Htr2 & Hres2).
    exists (tr1 ++ tr2), res2. rewrite app_assoc.
    repeat split; [by apply Forall_app | done].
  - exists tr1, (Raise e). by repeat split.
Qed.

End FetcherFacts.

Section FetcherRun.

Import Fetcher.

Variable r : Remote.
Variables router_name backup_path current_time : string.

Local Abbreviation ok := (fetch_event_ok r router_name backup_path current_time).
Local Abbreviation uncaught := (fun e => caught e = false /\ raised_by r e).
Local Abbreviation any := (fun _ : unit => True).
Local Abbreviation eventos :=
  (eventos_archivo r router_name backup_path current_time).
Local Abbreviation localpath_of := (fun archivo =>
  os_path_join backup_path
    (nuevo_nombre_archivo router_name current_time archivo)).

Lemma descargar_archivo_behaves archivo l :
  In archivo archivos_deseados ->
  listdir_outcome r "." = Return l -> Py.str_in archivo l = true ->
  behaves ok uncaught any
    (descargar_archivo r archivo backup_path router_name current_time).
Proof.
  intros Hin Hl Hmem. unfold descargar_archivo.
  apply behaves_try_except with (C0 := raised_by r).
  - unfold sftp_get, logging.
    eapply behaves_bind; [| intros _ _; by apply behaves_emit].
    eapply behaves_bind.
    { apply behaves_emit. simpl. by exists archivo, l. }
    intros _ _.
    eapply behaves_bind
      with (V := fun _ =>
                   local_open_outcome r (localpath_of archivo) = Return tt).
    { apply behaves_call.
      destruct (local_open_outcome r _) as [[] | e] eqn:E; [done |].
      right; right. exists ("/" +:+ archivo), (localpath_of archivo).
      unfold get_outcome. by rewrite E. }
    intros _ Hopen. eapply behaves_bind; [by apply behaves_emit |].
    intros _ _. eapply behaves_bind; [| intros _ _; by apply behaves_emit].
    apply (behaves_call _ _ any).
    destruct (transfer_outcome r _ _) as [| e] eqn:E; [done |].
    right; right. exists ("/" +:+ archivo), (localpath_of archivo).
    unfold get_outcome. by rewrite Hopen, E.
  - intros e He. unfold logging.
    destruct e; simpl; try (by apply behaves_emit); by split.
Qed.

Lemma descargar_archivos_behaves c tr :
  exists tr' res,
    descargar_archivos r (Some c) router_name backup_path current_time tr
    = (tr ++ tr' ++ [EvSessionClose], res)
    /\ Forall ok tr'
    /\ match res with Return _ => True | Raise e => uncaught e end.
Proof.
  unfold descargar_archivos, try_finally.
  match goal with
  | |- context [try_except ?m ?h tr] =>
      assert (behaves ok uncaught any (try_except m h)) as Hin
  end.
  { apply behaves_try_except with (C0 := raised_by r).
    - unfold with_open_sftp.
      eapply behaves_bind.
      { apply (behaves_call _ _ any).
        destruct (open_sftp_outcome r) eqn:E; [done | by left]. }
      intros _ _. eapply behaves_bind; [by apply behaves_emit |].
      intros _ _. apply behaves_try_finally; [| by apply behaves_emit].
      eapply behaves_bind
        with (V := fun l => listdir_outcome r "." = Return l).
      { unfold sftp_listdir.
        eapply behaves_bind; [by apply behaves_emit |].
        intros _ _. apply behaves_call.
        destruct (listdir_outcome r ".") eqn:E; [done |].
        right; left. eauto. }
      intros l Hl. apply behaves_for_each. intros archivo Hin.
      destruct (Py.str_in archivo l) eqn:Hmem.
      + eapply behaves_weaken; [| | | by eapply descargar_archivo_behaves];
          [done | by intros ? [_ ?] | done].
      + by apply behaves_emit.
    - intros e He. unfold logging.
      destruct e; simpl; try (by apply behaves_emit); by split. }
  destruct (Hin tr) as (tr' & res & -> & Htr' & Hres).
  unfold emit. exists tr', res. rewrite app_assoc.
  split; [done |]. split; [done |]. by destruct res.
Qed.

Lemma descargar_archivo_run archivo tr :
  descargar_archivo r archivo backup_path router_name current_time tr
  = let antes := eventos_get r ("/" +:+ archivo) (localpath_of archivo) in
    match get_outcome r ("/" +:+ archivo) (localpath_of archivo) with
    | Return _ =>
        (tr ++ antes ++ [EvWritten (localpath_of archivo);
                         EvLog (LogDownloaded archivo router_name)],
         Return tt)
    | Raise e =>
        match per_file_log archivo e with
        | Some l => (tr ++ antes ++ [EvLog l], Return tt)
        | None => (tr ++ antes, Raise e)
        end
    end.
Proof.
  unfold descargar_archivo, try_except, sftp_get, logging, mbind, M_bind,
    bind, emit, call, get_outcome, eventos_get.
  destruct (local_open_outcome r _) as [[] | e]; [| destruct e]; simpl;
    rewrite <- ?app_assoc; try done.
  destruct (transfer_outcome r _ _) as [[] | e]; [| destruct e]; simpl;
    by rewrite <- ?app_assoc.
Qed.

Lemma per_file_log_caught archivo e :
  caught e = true -> is_Some (per_file_log archivo e).
Proof. destruct e; simpl; eauto; done. Qed.

Lemma fetch_one_run l archivo tr :
  (forall e, get_outcome r ("/" +:+ archivo) (localpath_of archivo) = Raise e ->
             caught e = true) ->
  (if Py.str_in archivo l
   then descargar_archivo r archivo backup_path router_name current_time
   else logging (LogMissing archivo router_name)) tr
  = (tr ++ eventos l archivo, Return tt).
Proof.
  intros Hc. unfold eventos_archivo.
  destruct (Py.str_in archivo l); [| done].
  rewrite descargar_archivo_run.
  destruct (get_outcome r _ _) as [[] | e]; [done |].
  destruct (per_file_log_caught archivo e) as [line ->]; [by apply Hc | done].
Qed.

Lemma solicitudes_app (tr1 tr2 : list event) :
  solicitudes (tr1 ++ tr2) = solicitudes tr1 ++ solicitudes tr2.
Proof. apply List.filter_app. Qed.

Lemma solicitudes_eventos_get p q :
  solicitudes (eventos_get r p q) = [EvGet p q].
Proof.
  unfold eventos_get, solicitudes. simpl.
  by destruct (local_open_outcome r q).
Qed.

Lemma solicitudes_subseteq (tr : list event) ev : ev ∈ solicitudes tr -> ev ∈ tr.
Proof.
  unfold solicitudes. rewrite !list_elem_of_In, filter_In. by intros [? _].
Qed.

(** The loop over the allow-listed files: what it requests, that every
    [get] whose local file opens leaves that file, and how it ends. *)
Lemma loop_run l archivos tr :
  exists evs res,
    for_each archivos (fun archivo =>
      if Py.str_in archivo l
      then descargar_archivo r archivo backup_path router_name current_time
      else logging (LogMissing archivo router_name)) tr
    = (tr ++ evs, res)
    /\ solicitudes evs
       = map (fun a => EvGet ("/" +:+ a) (localpath_of a))
           (alcanzados r localpath_of
              (List.filter (fun a => Py.str_in a l) archivos))
    /\ (forall p q,
          EvGet p q ∈ evs -> local_open_outcome r q = Return tt ->
          EvLocalOpen q ∈ evs)
    /\ (forall a e,
          EvGet ("/" +:+ a) (localpath_of a) ∈ evs ->
          get_outcome r ("/" +:+ a) (localpath_of a) = Raise e ->
          caught e = false -> res = Raise e)
    /\ match res with
       | Return _ =>
           alcanzados r localpath_of
             (List.filter (fun a => Py.str_in a l) archivos)
           = List.filter (fun a => Py.str_in a l) archivos
           /\ forall a, In a archivos -> Py.str_in a l = false ->
                        EvLog (LogMissing a router_name) ∈ evs
       | Raise e => caught e = false
       end.
Proof.
  revert tr. induction archivos as [|a archivos IH]; intros tr.
  - exists [], (Return tt). rewrite app_nil_r.
    split_and!; try done.
    + by intros p q H%elem_of_nil.
    + by intros a e H%elem_of_nil.
  - rewrite for_each_cons. cbn [List.filter].
    assert (forall p q tail,
              (forall p' q', EvGet p' q' ∉ tail) ->
              forall p' q',
                EvGet p' q' ∈ eventos_get r p q ++ tail ->
                local_open_outcome r q' = Return tt ->
                EvLocalOpen q' ∈ eventos_get r p q ++ tail) as Hget.
    { intros p q tail Htail p' q' Hin Ho. apply elem_of_app in Hin.
      destruct Hin as [Hin | Hin]; [| by apply Htail in Hin].
      apply elem_of_app. left. unfold eventos_get in *.
      apply elem_of_cons in Hin as [[= -> ->] | Hin].
      - rewrite Ho. apply elem_of_cons. right. by left.
      - destruct (local_open_outcome r q);
          [apply list_elem_of_singleton in Hin; done
          | by apply elem_of_nil in Hin]. }
    assert (forall evs1 evs2 : list event,
              (forall p q, EvGet p q ∈ evs1 ->
                 local_open_outcome r q = Return tt -> EvLocalOpen q ∈ evs1) ->
              (forall p q, EvGet p q ∈ evs2 ->
                 local_open_outcome r q = Return tt -> EvLocalOpen q ∈ evs2) ->
              forall p q, EvGet p q ∈ evs1 ++ evs2 ->
                 local_open_outcome r q = Return tt ->
                 EvLocalOpen q ∈ evs1 ++ evs2) as Happ.
    { intros evs1 evs2 H1 H2 p q Hin Ho. rewrite elem_of_app in *.
      destruct Hin as [Hin | Hin]; eauto. }
    assert (forall a' p q,
              EvGet ("/" +:+ a') (localpath_of a') ∈ eventos_get r p q ->
              "/" +:+ a' = p) as Hsame.
    { intros a' p q Hin. unfold eventos_get in Hin.
      apply elem_of_cons in Hin as [[= -> _] | Hin]; [done |].
      destruct (local_open_outcome r q);
        [apply list_elem_of_singleton in Hin; done
        | by apply elem_of_nil in Hin]. }
    destruct (Py.str_in a l) eqn:Hmem.
    + rewrite descargar_archivo_run. cbn zeta. cbn [alcanzados map].
      destruct (get_outcome r ("/" +:+ a) (localpath_of a)) as [[] | e] eqn:Eg.
      * match goal with
        | |- context [for_each _ _ ?t] =>
            destruct (IH t) as (evs & res & -> & Hs & Hp & Hu & Hr)
        end.
        eexists _, res. split; [by rewrite <- !app_assoc |].
        rewrite !solicitudes_app, solicitudes_eventos_get, Hs.
        split; [done |]. split; [| split].
        -- rewrite app_assoc. apply Happ; [| done]. apply Hget.
           intros p' q' H. repeat (apply elem_of_cons in H as [[=] | H]).
           by apply elem_of_nil in H.
        -- intros a' e' Hin' He' Hc'. rewrite !elem_of_app in Hin'.
           destruct Hin' as [Hin' | [Hin' | Hin']]; [| | by eapply Hu].
           ++ apply Hsame, (inj (String.append "/")) in Hin' as ->.
              congruence.
           ++ repeat (apply elem_of_cons in Hin' as [[=] | Hin']).
              by apply elem_of_nil in Hin'.
        -- destruct res; [| done]. destruct Hr as [Hr Hm].
           split; [by rewrite Hr |]. intros a' [<- | Hin] Ha'; [congruence |].
           rewrite !elem_of_app. right; right. by apply Hm.
      * destruct (per_file_log a e) as [line |] eqn:Hline.
        -- assert (caught e = true) as -> by by destruct e.
           match goal with
           | |- context [for_each _ _ ?t] =>
               destruct (IH t) as (evs & res & -> & Hs & Hp & Hu & Hr)
           end.
           eexists _, res. split; [by rewrite <- !app_assoc |].
           rewrite !solicitudes_app, solicitudes_eventos_get, Hs.
           split; [done |]. split; [| split].
           ++ rewrite app_assoc. apply Happ; [| done]. apply Hget.
              intros p' q' H. repeat (apply elem_of_cons in H as [[=] | H]).
              by apply elem_of_nil in H.
           ++ intros a' e' Hin' He' Hc'. rewrite !elem_of_app in Hin'.
              destruct Hin' as [Hin' | [Hin' | Hin']]; [| | by eapply Hu].
              ** apply Hsame, (inj (String.append "/")) in Hin' as ->.
                 assert (e' = e) as -> by congruence.
                 destruct e; done.
              ** repeat (apply elem_of_cons in Hin' as [[=] | Hin']).
                 by apply elem_of_nil in Hin'.
           ++ destruct res; [| done]. destruct Hr as [Hr Hm].
              split; [by rewrite Hr |].
              intros a' [<- | Hin] Ha'; [congruence |].
              rewrite !elem_of_app. right; right. by apply Hm.
        -- assert (caught e = false) as Hc by by destruct e.
           rewrite Hc. eexists _, (Raise e). split; [done |].
           rewrite solicitudes_eventos_get. split; [done |].
           split; [| split; [| done]].
           ++ rewrite <- (app_nil_r (eventos_get _ _ _)). apply Hget.
              by intros p' q' H%elem_of_nil.
           ++ intros a' e' Hin' He' Hc'.
              apply Hsame, (inj (String.append "/")) in Hin' as ->.
              congruence.
    + change (logging (LogMissing a router_name) tr)
        with (tr ++ [EvLog (LogMissing a router_name)], @Return unit tt).
      cbv beta iota.
      match goal with
      | |- context [for_each _ _ ?t] =>
          destruct (IH t) as (evs & res & -> & Hs & Hp & Hu & Hr)
      end.
      eexists _, res. split; [by rewrite <- !app_assoc |].
      rewrite solicitudes_app. split; [done |]. split; [| split].
      * apply Happ; [| done].
        intros p q H. apply list_elem_of_singleton in H. done.
      * intros a' e' Hin' He' Hc'. apply elem_of_app in Hin'.
        destruct Hin' as [Hin' | Hin']; [| by eapply Hu].
        apply list_elem_of_singleton in Hin'. done.
      * destruct res; [| done]. destruct Hr as [Hr Hm].
        split; [done |]. intros a' [<- | Hin] Ha'.
        -- apply elem_of_app. left. by apply list_elem_of_singleton.
        -- apply elem_of_app. right. by apply Hm.
Qed.

(** The whole call when the SFTP client opens and the listing returns. *)
Lemma descargar_archivos_solicitudes c l :
  open_sftp_outcome r = Return tt ->
  listdir_outcome r "." = Return l ->
  let out :=
    descargar_archivos r (Some c) router_name backup_path current_time [] in
  let presentes := List.filter (fun a => Py.str_in a l) archivos_deseados in
  solicitudes (fst out)
  = EvListdir "." ::
    map (fun a => EvGet ("/" +:+ a) (localpath_of a))
      (alcanzados r localpath_of presentes)
  /\ (forall p q,
        EvGet p q ∈ fst out -> local_open_outcome r q = Return tt ->
        EvLocalOpen q ∈ fst out)
  /\ (forall a e,
        EvGet ("/" +:+ a) (localpath_of a) ∈ fst out ->
        get_outcome r ("/" +:+ a) (localpath_of a) = Raise e ->
        caught e = false -> snd out = Raise e)
  /\ match snd out with
     | Return _ =>
         alcanzados r localpath_of presentes = presentes
         /\ forall a, In a archivos_deseados -> Py.str_in a l = false ->
                      EvLog (LogMissing a router_name) ∈ fst out
     | Raise e => caught e = false
     end.
Proof.
  intros Hopen Hlist out presentes. subst out.
  unfold descargar_archivos, with_open_sftp, sftp_listdir.
  unfold try_finally, try_except, mbind, M_bind, bind, call, emit.
  rewrite Hopen, Hlist. cbn beta.
  match goal with
  | |- context [for_each _ _ ?t] =>
      destruct (loop_run l archivos_deseados t)
        as (evs & res & -> & Hs & Hp & Hu & Hr)
  end.
  fold presentes in Hs, Hr. clearbody presentes.
  assert (forall p q (tl : list event),
            EvGet p q
            ∈ EvSftpOpen :: EvListdir "." :: (evs ++ [EvSftpClose]) ++ tl ->
            (forall p' q', EvGet p' q' ∉ tl) -> EvGet p q ∈ evs) as Hin_evs.
  { intros p q tl Hg Htl.
    rewrite !elem_of_cons, !elem_of_app, !elem_of_cons, !elem_of_nil in Hg.
    destruct Hg as [[=] | [[=] | [[Hg | [[=] | []]] | Hg]]]; [done |].
    by apply Htl in Hg. }
  assert (forall p' q', EvGet p' q' ∉ [EvSessionClose]) as Hclose.
  { intros p' q' H. by apply list_elem_of_singleton in H. }
  destruct res as [[] | e].
  - cbn [fst snd app]. split; [| split; [| split]].
    + unfold solicitudes in *. simpl. rewrite !List.filter_app, Hs. simpl.
      by rewrite !app_nil_r.
    + intros p q Hg Ho. apply Hin_evs in Hg; [| done].
      rewrite !elem_of_cons, !elem_of_app. right; right; left; left.
      by apply (Hp p).
    + intros a e Hg He Hc. apply Hin_evs in Hg; [| done]. by eapply Hu.
    + destruct Hr as [Hr Hm]. split; [done |]. intros a Ha Hmem.
      specialize (Hm a Ha Hmem). rewrite !elem_of_cons, !elem_of_app. auto.
  - assert (is_SSHException e = false /\ is_OSError e = false) as [-> ->].
    { by destruct e. }
    cbn [fst snd app]. split; [| split; [| split; [| done]]].
    + unfold solicitudes in *. simpl. rewrite !List.filter_app, Hs. simpl.
      by rewrite !app_nil_r.
    + intros p q Hg Ho. apply Hin_evs in Hg; [| done].
      rewrite !elem_of_cons, !elem_of_app. right; right; left; left.
      by apply (Hp p).
    + intros a e' Hg He Hc. apply Hin_evs in Hg; [| done]. by eapply Hu.
Qed.

(** The whole call when the SFTP client does not open, or the listing
    fails, whatever the exception. *)
Lemma descargar_archivos_solicitudes_no_sftp c e :
  open_sftp_outcome r = Raise e ->
  solicitudes
    (fst (descargar_archivos r (Some c) router_name backup_path current_time
            []))
  = [].
Proof.
  intros Hopen.
  unfold descargar_archivos, with_open_sftp, try_finally, try_except, mbind,
    M_bind, bind, call, emit.
  rewrite Hopen. by destruct e.
Qed.

Lemma descargar_archivos_solicitudes_no_listing c e :
  open_sftp_outcome r = Return tt ->
  listdir_outcome r "." = Raise e ->
  solicitudes
    (fst (descargar_archivos r (Some c) router_name backup_path current_time
            []))
  = [EvListdir "."].
Proof.
  intros Hopen Hlist.
  unfold descargar_archivos, with_open_sftp, sftp_listdir, try_finally,
    try_except, mbind, M_bind, bind, call, emit.
  rewrite Hopen, Hlist. by destruct e.
Qed.

Lemma elem_of_solicitudes_get (tr : list event) p q :
  EvGet p q ∈ tr -> EvGet p q ∈ solicitudes tr.
Proof.
  unfold solicitudes. rewrite !list_elem_of_In, filter_In. by intros ?.
Qed.

(** The whole call when the SFTP client opens, the listing returns and
    the transfers end in ways the handlers cover. *)
Lemma descargar_archivos_listed c l tr :
  (forall p q e, get_outcome r p q = Raise e -> caught e = true) ->
  open_sftp_outcome r = Return tt ->
  listdir_outcome r "." = Return l ->
  descargar_archivos r (Some c) router_name backup_path current_time tr
  = (tr ++ [EvSftpOpen; EvListdir "."]
        ++ eventos l "latest.rsc" ++ eventos l "latest.backup"
        ++ [EvSftpClose; EvSessionClose],
     Return tt).
Proof.
  intros Hget Hopen Hlist.
  unfold descargar_archivos, with_open_sftp, sftp_listdir, archivos_deseados.
  cbn [for_each].
  unfold try_finally, try_except, mbind, M_bind, bind, call, emit.
  rewrite Hopen, Hlist. cbn beta.
  rewrite fetch_one_run by eauto. rewrite fetch_one_run by eauto.
  unfold ret. f_equal. rewrite <- !app_assoc. done.
Qed.

(** The whole call when opening the SFTP client fails. *)
Lemma descargar_archivos_no_sftp c e tr :
  open_sftp_outcome r = Raise e -> caught e = true ->
  descargar_archivos r (Some c) router_name backup_path current_time tr
  = (tr ++ [EvLog (fetch_log router_name e); EvSessionClose], Return tt).
Proof.
  intros Hopen He.
  unfold descargar_archivos, try_finally, try_except, with_open_sftp,
    mbind, M_bind, bind, call, emit.
  rewrite Hopen. unfold fetch_log, logging, emit.
  destruct e; try done; simpl; by rewrite <- app_assoc.
Qed.

(** The whole call when the listing fails. *)
Lemma descargar_archivos_no_listing c e tr :
  open_sftp_outcome r = Return tt ->
  listdir_outcome r "." = Raise e -> caught e = true ->
  descargar_archivos r (Some c) router_name backup_path current_time tr
  = (tr ++ [EvSftpOpen; EvListdir "."; EvSftpClose;
            EvLog (fetch_log router_name e); EvSessionClose],
     Return tt).
Proof.
  intros Hopen Hlist He.
  unfold descargar_archivos, with_open_sftp, sftp_listdir.
  unfold try_finally, try_except, mbind, M_bind, bind, call, emit.
  rewrite Hopen, Hlist. unfold fetch_log, logging, emit.
  destruct e; try done; simpl; by rewrite <- !app_assoc.
Qed.

End FetcherRun.

(** *** Claims about the fetcher *)

Lemma ok_not_close r n b t (tr : list event) :
  Forall (Fetcher.fetch_event_ok r n b t) tr -> EvSessionClose ∉ tr.
Proof.
  intros H Hin. rewrite Forall_forall in H. by apply H in Hin.
Qed.

(** C8. Whatever the remote side answers, a call of [descargar_archivos]
    on a session closes that session exactly once, as the last thing it
    does: the events of the call are some events without a close, then the
    close.  This covers the call that returns and the call that ends with
    an exception (which then is one no handler catches, raised by the
    listing or a transfer). *)
Theorem session_closed_exactly_once
    (r : Remote) (c : SSHClient)
    (router_name backup_path current_time : string) (tr : list event) :
  exists tr' res,
    Fetcher.descargar_archivos r (Some c) router_name backup_path
      current_time tr
    = (tr ++ tr' ++ [EvSessionClose], res)
    /\ (EvSessionClose ∉ tr')
    /\ match res with
       | Return _ => True
       | Raise e => Fetcher.caught e = false /\ Fetcher.raised_by r e
       end.
Proof.
  destruct (descargar_archivos_behaves r router_name backup_path
              current_time c tr) as (tr' & res & Hrun & Hok & Hres).
  exists tr', res. split; [done |]. split; [| done].
  by eapply ok_not_close.
Qed.

Example close_on_normal_return :
  Fetcher.descargar_archivos Samples.router_ok (Some Samples.cliente)
    "edge1" "/srv/bk" "20240101" []
  = ([EvSftpOpen; EvListdir ".";
      EvGet "/latest.rsc" "/srv/bk/edge1_20240101_latest.rsc";
      EvLocalOpen "/srv/bk/edge1_20240101_latest.rsc";
      EvWritten "/srv/bk/edge1_20240101_latest.rsc";
      EvLog (LogDownloaded "latest.rsc" "edge1");
      EvGet "/latest.backup" "/srv/bk/edge1_20240101_latest.backup";
      EvLocalOpen "/srv/bk/edge1_20240101_latest.backup";
      EvWritten "/srv/bk/edge1_20240101_latest.backup";
      EvLog (LogDownloaded "latest.backup" "edge1");
      EvSftpClose; EvSessionClose], Return tt).
Proof. reflexivity. Qed.

Example close_on_listing_exception :
  Fetcher.descargar_archivos Samples.router_no_listing (Some Samples.cliente)
    "edge1" "/srv/bk" "20240101" []
  = ([EvSftpOpen; EvListdir "."; EvSftpClose;
      EvLog (LogFetchSSH "edge1" SSHException); EvSessionClose], Return tt).
Proof. reflexivity. Qed.

Example close_on_transfer_exception :
  Fetcher.descargar_archivos Samples.router_other (Some Samples.cliente)
    "edge1" "/srv/bk" "20240101" []
  = ([EvSftpOpen; EvListdir ".";
      EvGet "/latest.rsc" "/srv/bk/edge1_20240101_latest.rsc";
      EvLocalOpen "/srv/bk/edge1_20240101_latest.rsc";
      EvSftpClose; EvSessionClose], Raise OtherException).
Proof. reflexivity. Qed.

(** C7, as stated, fails: when a transfer raises an exception outside the
    classes the handlers name, the call raises it past its boundary, and
    the second file is not attempted. *)
Lemma fetch_raises_past_boundary :
  snd (Fetcher.descargar_archivos Samples.router_other (Some Samples.cliente)
         "edge1" "/srv/bk" "20240101" [])
  = Raise OtherException
  /\ EvGet "/latest.backup" "/srv/bk/edge1_20240101_latest.backup"
     ∉ fst (Fetcher.descargar_archivos Samples.router_other
              (Some Samples.cliente) "edge1" "/srv/bk" "20240101" []).
Proof.
  split; [reflexivity |].
  vm_compute. intros H. repeat (apply elem_of_cons in H as [H | H]; [done |]).
  by apply elem_of_nil in H.
Qed.

(** C7, amended. When every failure of the remote side is an
    [SSHException] or an [OSError] (which covers file not found,
    permission denied, protocol and system errors), the call returns
    normally and its events are exactly: the log line of the failure when
    the SFTP client does not open or the listing fails; otherwise, for each
    allow-listed file in turn, its own events, which depend on the listing
    and on that file's own transfer only.  So each listed file is
    requested whatever happened to the other, and each failed transfer is
    logged.  An exception of any other class is not caught: raised when
    the SFTP client is opened, by the listing or by a [get] the call makes,
    it leaves the call, which logs nothing further and closes the session
    last. *)
Theorem fetch_failures_contained
    (r : Remote) (c : SSHClient)
    (router_name backup_path current_time : string) :
  let out :=
    Fetcher.descargar_archivos r (Some c) router_name backup_path
      current_time [] in
  let eventos :=
    Fetcher.eventos_archivo r router_name backup_path current_time in
  (Fetcher.failures_caught r ->
     snd out = Return tt
     /\ match open_sftp_outcome r with
        | Raise e =>
            fst out = [EvLog (Fetcher.fetch_log router_name e); EvSessionClose]
        | Return _ =>
            match listdir_outcome r "." with
            | Raise e =>
                fst out = [EvSftpOpen; EvListdir "."; EvSftpClose;
                           EvLog (Fetcher.fetch_log router_name e);
                           EvSessionClose]
            | Return l =>
                fst out = [EvSftpOpen; EvListdir "."]
                          ++ eventos l "latest.rsc" ++ eventos l "latest.backup"
                          ++ [EvSftpClose; EvSessionClose]
                /\ forall archivo,
                     In archivo Fetcher.archivos_deseados ->
                     Py.str_in archivo l = true ->
                     let remotepath := "/" +:+ archivo in
                     let localpath :=
                       os_path_join backup_path
                         (Fetcher.nuevo_nombre_archivo router_name current_time
                            archivo) in
                     EvGet remotepath localpath ∈ fst out
                     /\ match get_outcome r remotepath localpath with
                        | Return _ => EvWritten localpath ∈ fst out
                        | Raise e =>
                            exists line,
                              Fetcher.per_file_log archivo e = Some line
                              /\ EvLog line ∈ fst out
                        end
            end
        end)
  /\ (forall e,
        Fetcher.caught e = false ->
        (open_sftp_outcome r = Raise e -> out = ([EvSessionClose], Raise e))
        /\ (open_sftp_outcome r = Return tt ->
            listdir_outcome r "." = Raise e ->
            out = ([EvSftpOpen; EvListdir "."; EvSftpClose; EvSessionClose],
                   Raise e))
        /\ (forall archivo,
              let remotepath := "/" +:+ archivo in
              let localpath :=
                os_path_join backup_path
                  (Fetcher.nuevo_nombre_archivo router_name current_time
                     archivo) in
              EvGet remotepath localpath ∈ fst out ->
              get_outcome r remotepath localpath = Raise e ->
              snd out = Raise e /\ last (fst out) = Some EvSessionClose)).
Proof.
  intros out eventos. split.
  { intros (Hopen & Hlist & Hget). subst out.
    destruct (open_sftp_outcome r) as [[] | e] eqn:Eo.
    - destruct (listdir_outcome r ".") as [l | e] eqn:El.
      + rewrite (descargar_archivos_listed r _ _ _ c l []) by done.
        simpl fst. simpl snd. split; [done |]. split; [done |].
        intros archivo Hin Hmem remotepath localpath.
        assert (forall ev, ev ∈ eventos l archivo ->
                  ev ∈ [EvSftpOpen; EvListdir "."] ++ eventos l "latest.rsc"
                       ++ eventos l "latest.backup"
                       ++ [EvSftpClose; EvSessionClose]) as Hsub.
        { intros ev Hev. rewrite !elem_of_app.
          destruct Hin as [<- | [<- | []]]; auto. }
        assert (eventos l archivo
                = Fetcher.eventos_get r remotepath localpath ++
                  match get_outcome r remotepath localpath with
                  | Return _ => [EvWritten localpath;
                                 EvLog (LogDownloaded archivo router_name)]
                  | Raise e => match Fetcher.per_file_log archivo e with
                               | Some line => [EvLog line]
                               | None => []
                               end
                  end) as Hev.
        { unfold eventos, Fetcher.eventos_archivo. by rewrite Hmem. }
        split.
        * apply Hsub. rewrite Hev. apply elem_of_app. left. by left.
        * destruct (get_outcome r remotepath localpath) as [[] | e] eqn:Eg.
          -- apply Hsub. rewrite Hev. apply elem_of_app. right. by left.
          -- destruct (per_file_log_caught archivo e) as [line Hline];
               [by eapply Hget |].
             exists line. split; [done |]. apply Hsub. rewrite Hev, Hline.
             apply elem_of_app. right. by left.
      + rewrite (descargar_archivos_no_listing r _ _ _ c e []) by eauto.
        done.
    - rewrite (descargar_archivos_no_sftp r _ _ _ c e []) by eauto. done. }
  intros e Hc. split; [| split].
  - intros Ho. unfold out, Fetcher.descargar_archivos,
      Fetcher.with_open_sftp, try_finally, try_except, mbind, M_bind, bind,
      Fetcher.call, Fetcher.emit.
    rewrite Ho. by destruct e.
  - intros Ho Hl. unfold out, Fetcher.descargar_archivos,
      Fetcher.with_open_sftp, Fetcher.sftp_listdir, try_finally,
      try_except, mbind, M_bind, bind, Fetcher.call, Fetcher.emit.
    rewrite Ho, Hl. by destruct e.
  - intros archivo remotepath localpath Hg He.
    split.
    + destruct (open_sftp_outcome r) as [[] | e'] eqn:Eo.
      * destruct (listdir_outcome r ".") as [l | e'] eqn:El.
        -- destruct (descargar_archivos_solicitudes r router_name
                       backup_path current_time c l Eo El)
             as (_ & _ & Hu & _).
           by apply (Hu archivo).
        -- apply elem_of_solicitudes_get in Hg. unfold out in Hg.
           rewrite (descargar_archivos_solicitudes_no_listing
                      r _ _ _ c e' Eo El) in Hg.
           by apply list_elem_of_singleton in Hg.
      * apply elem_of_solicitudes_get in Hg. unfold out in Hg.
        rewrite (descargar_archivos_solicitudes_no_sftp r _ _ _ c e' Eo)
          in Hg.
        by apply elem_of_nil in Hg.
    + destruct (descargar_archivos_behaves r router_name backup_path
                  current_time c []) as (tr' & res & Hrun & _).
      unfold out. rewrite Hrun. simpl. by rewrite last_snoc.
Qed.

Ltac case_get_outcome :=
  match goal with
  | |- context [get_outcome ?r ?a ?b] =>
      let e := fresh "e" in
      destruct (get_outcome r a b) as [[] | e]; [| destruct e]
  end.

Lemma fetch_failures_contained_witness :
  Fetcher.failures_caught Samples.router_denied
  /\ Fetcher.descargar_archivos Samples.router_denied (Some Samples.cliente)
       "edge1" "/srv/bk" "20240101" []
     = ([EvSftpOpen; EvListdir ".";
         EvGet "/latest.rsc" "/srv/bk/edge1_20240101_latest.rsc";
         EvLocalOpen "/srv/bk/edge1_20240101_latest.rsc";
         EvLog (LogGetPermission PermissionError);
         EvGet "/latest.backup" "/srv/bk/edge1_20240101_latest.backup";
         EvLocalOpen "/srv/bk/edge1_20240101_latest.backup";
         EvWritten "/srv/bk/edge1_20240101_latest.backup";
         EvLog (LogDownloaded "latest.backup" "edge1");
         EvSftpClose; EvSessionClose], Return tt).
Proof.
  assert (Fetcher.failures_caught Samples.router_denied) as H.
  { split; [| split]; simpl.
    - intros e [=].
    - intros p e [=].
    - intros p q e. unfold get_outcome. simpl.
      destruct (String.eqb p "/latest.rsc"); by intros [= <-]. }
  split; [exact H |].
  pose proof (proj1 (fetch_failures_contained Samples.router_denied
                       Samples.cliente "edge1" "/srv/bk" "20240101") H)
    as (Hret & Hev & _).
  apply injective_projections; [exact Hev | exact Hret].
Defined.

(** C10. What a call asks of the SFTP client is known exactly.  When the
    client does not open, nothing; otherwise one listing, of ["."], the
    working directory of the session, before anything else; and when that
    listing returns, one [get] for each allow-listed file found in it, in
    turn, always of the absolute path ["/" +:+ archivo], up to the first
    that ends with an exception no handler catches.  So the first
    allow-listed file found in the listing is always requested from the
    root, every one of them is when the call returns, and a file the
    listing lacks never is.  On a server with working directory [cwd],
    ["."] names [cwd] and ["/" +:+ archivo] names the entry [archivo] of
    the root: the listing is that of [cwd], the transfer succeeds exactly
    when the root holds the file, and the directory listed is the
    directory fetched from exactly when [cwd] is the root. *)
Theorem listing_in_cwd_download_from_root
    (r : Remote) (c : SSHClient)
    (router_name backup_path current_time : string) :
  let out :=
    Fetcher.descargar_archivos r (Some c) router_name backup_path
      current_time [] in
  let localpath_of := fun archivo =>
    os_path_join backup_path
      (Fetcher.nuevo_nombre_archivo router_name current_time archivo) in
  let pedido := fun archivo =>
    EvGet ("/" +:+ archivo) (localpath_of archivo) in
  match open_sftp_outcome r with
  | Raise _ => Fetcher.solicitudes (fst out) = []
  | Return _ =>
      match listdir_outcome r "." with
      | Raise _ => Fetcher.solicitudes (fst out) = [EvListdir "."]
      | Return l =>
          let presentes :=
            List.filter (fun a => Py.str_in a l) Fetcher.archivos_deseados in
          Fetcher.solicitudes (fst out)
          = EvListdir "." ::
            map pedido (Fetcher.alcanzados r localpath_of presentes)
          /\ (forall archivo,
                head presentes = Some archivo -> pedido archivo ∈ fst out)
          /\ (snd out = Return tt ->
              forall archivo, In archivo presentes -> pedido archivo ∈ fst out)
          /\ (forall archivo localpath,
                Py.str_in archivo l = false ->
                EvGet ("/" +:+ archivo) localpath ∉ fst out)
      end
  end
  /\ (forall p, EvListdir p ∈ fst out -> p = ".")
  /\ (forall remotepath localpath,
        EvGet remotepath localpath ∈ fst out ->
        exists archivo l,
          In archivo Fetcher.archivos_deseados
          /\ listdir_outcome r "." = Return l
          /\ Py.str_in archivo l = true
          /\ remotepath = "/" +:+ archivo
          /\ localpath = localpath_of archivo)
  /\ (forall l archivo,
        open_sftp_outcome r = Return tt ->
        listdir_outcome r "." = Return l ->
        In archivo Fetcher.archivos_deseados ->
        Py.str_in archivo l = true ->
        EvGet ("/" +:+ archivo) (localpath_of archivo) ∈ fst out
        \/ exists e, snd out = Raise e)
  /\ (forall cwd archivo,
        In archivo Fetcher.archivos_deseados ->
        Sftp.resolve cwd "." = cwd
        /\ Sftp.resolve cwd ("/" +:+ archivo) = [archivo]
        /\ (Sftp.resolve cwd "." = removelast (Sftp.resolve cwd ("/" +:+ archivo))
            <-> cwd = []))
  /\ (forall sv archivo localpath,
        In archivo Fetcher.archivos_deseados ->
        listdir_outcome (Sftp.remote sv) "."
        = Return (Sftp.entries sv (Sftp.cwd sv))
        /\ get_outcome (Sftp.remote sv) ("/" +:+ archivo) localpath
           = if Sftp.has_file sv [archivo] then Return tt
             else Raise FileNotFoundError).
Proof.
  intros out localpath_of pedido.
  destruct (descargar_archivos_behaves r router_name backup_path
              current_time c []) as (tr' & res & Hrun & Hok & _).
  assert (fst out = tr' ++ [EvSessionClose]) as Hout.
  { unfold out. by rewrite Hrun. }
  rewrite Forall_forall in Hok.
  assert (forall remotepath localpath,
            EvGet remotepath localpath ∈ fst out ->
            exists archivo l,
              In archivo Fetcher.archivos_deseados
              /\ listdir_outcome r "." = Return l
              /\ Py.str_in archivo l = true
              /\ remotepath = "/" +:+ archivo
              /\ localpath = localpath_of archivo) as Hgets.
  { intros remotepath localpath Hg.
    rewrite Hout, elem_of_app, list_elem_of_singleton in Hg.
    destruct Hg as [Hg | [=]]. by apply Hok in Hg. }
  assert (forall l,
            open_sftp_outcome r = Return tt ->
            listdir_outcome r "." = Return l ->
            Fetcher.solicitudes (fst out)
            = EvListdir "." ::
              map pedido
                (Fetcher.alcanzados r localpath_of
                   (List.filter (fun a => Py.str_in a l)
                      Fetcher.archivos_deseados))
            /\ (snd out = Return tt ->
                forall archivo,
                  In archivo (List.filter (fun a => Py.str_in a l)
                                Fetcher.archivos_deseados) ->
                  pedido archivo ∈ fst out)) as Hreq.
  { intros l Ho Hl.
    destruct (descargar_archivos_solicitudes r router_name backup_path
                current_time c l Ho Hl) as (Hs & _ & _ & Hr).
    split; [exact Hs |]. intros Hret archivo Hin.
    unfold out in Hret. rewrite Hret in Hr. destruct Hr as [Hr _].
    apply solicitudes_subseteq. unfold out. rewrite Hs, Hr.
    apply elem_of_cons. right.
    apply list_elem_of_In, (in_map pedido). done. }
  split; [| split; [| split; [| split; [| split]]]].
  - destruct (open_sftp_outcome r) as [[] | e] eqn:Eo.
    + destruct (listdir_outcome r ".") as [l | e] eqn:El.
      * destruct (Hreq l eq_refl eq_refl) as [Hs Hall].
        intros presentes. fold presentes in Hs, Hall.
        split; [exact Hs |]. split; [| split; [exact Hall |]].
        -- intros archivo Hhead. apply solicitudes_subseteq. rewrite Hs.
           destruct presentes as [|a resto]; [done |].
           injection Hhead as ->. cbn [Fetcher.alcanzados map].
           apply elem_of_cons. right. apply elem_of_cons. by left.
        -- intros archivo localpath Hmem Hg.
           destruct (Hgets _ _ Hg) as (a & l' & _ & [= <-] & Ha & Heq & _).
           apply (inj (String.append "/")) in Heq as <-. congruence.
      * by eapply descargar_archivos_solicitudes_no_listing.
    + by eapply descargar_archivos_solicitudes_no_sftp.
  - intros p Hp. rewrite Hout, elem_of_app, list_elem_of_singleton in Hp.
    destruct Hp as [Hp | [=]]. by apply Hok in Hp.
  - exact Hgets.
  - intros l archivo Ho Hl Hin Hmem.
    destruct (Hreq l Ho Hl) as [_ Hall].
    destruct (snd out) as [[] | e] eqn:Hres; [left | by right; exists e].
    apply Hall; [done |]. apply filter_In. by split.
  - intros cwd archivo Hin.
    assert (Sftp.resolve cwd "." = cwd) as Hdot.
    { unfold Sftp.resolve. simpl. apply app_nil_r. }
    assert (Sftp.resolve cwd ("/" +:+ archivo) = [archivo]) as Hroot.
    { by destruct Hin as [<- | [<- | []]]. }
    rewrite Hdot, Hroot. by repeat split.
  - intros sv archivo localpath Hin.
    assert (Sftp.resolve (Sftp.cwd sv) "." = Sftp.cwd sv) as Hdot.
    { unfold Sftp.resolve. simpl. apply app_nil_r. }
    assert (Sftp.resolve (Sftp.cwd sv) ("/" +:+ archivo) = [archivo]) as Hroot.
    { by destruct Hin as [<- | [<- | []]]. }
    unfold get_outcome. simpl. by rewrite Hdot, Hroot.
Qed.

Example listed_in_home_fetched_from_root :
  Fetcher.descargar_archivos Samples.router_home (Some Samples.cliente)
    "edge1" "/srv/bk" "20240101" []
  = ([EvSftpOpen; EvListdir ".";
      EvGet "/latest.rsc" "/srv/bk/edge1_20240101_latest.rsc";
      EvLocalOpen "/srv/bk/edge1_20240101_latest.rsc";
      EvLog (LogGetNotFound FileNotFoundError);
      EvLog (LogMissing "latest.backup" "edge1");
      EvSftpClose; EvSessionClose], Return tt).
Proof. reflexivity. Qed.

(** *** Claims about names *)

Lemma age_threshold_strict_witness :
  let d : gmap string Q := {["foo.rsc" := 0%Q]} in
  d !! "foo.rsc" = Some 0%Q
  /\ Rotator.es_candidato "foo.rsc" = true
  /\ dir (Rotator.rotar Samples.keep_ctime Samples.seis_dias (fs_init d))
       !! "foo.rsc" = Some 0%Q
  /\ ("foo.rsc", "foo-old.rsc")
       ∈ renombres
           (Rotator.rotar Samples.keep_ctime Samples.siete_dias (fs_init d)).
Proof.
  intros d.
  assert (d !! "foo.rsc" = Some 0%Q) as Hd by reflexivity.
  assert (Rotator.es_candidato "foo.rsc" = true) as Hc by reflexivity.
  split; [exact Hd |]. split; [exact Hc |]. split.
  - pose proof (age_threshold_strict Samples.keep_ctime Samples.seis_dias
                  d "foo.rsc" 0%Q Hd Hc) as (_ & _ & Hkept & _).
    apply Hkept. reflexivity.
  - pose proof (age_threshold_strict Samples.keep_ctime Samples.siete_dias
                  d "foo.rsc" 0%Q Hd Hc) as (_ & _ & _ & Hrot).
    apply Hrot. reflexivity.
Defined.

(** A name whose stem holds neither extension gets the marker once, right
    before the extension, and is otherwise unchanged. *)
Lemma nuevo_nombre_stem (stem ext : string) :
  ext = ".rsc" \/ ext = ".backup" ->
  Py.contains stem ".rsc" = false -> Py.contains stem ".backup" = false ->
  Rotator.nuevo_nombre (stem +:+ ext) = stem +:+ "-old" +:+ ext.
Proof.
  intros [-> | ->] H1 H2.
  - by rewrite nuevo_nombre_rsc, nuevo_nombre_absent.
  - by rewrite nuevo_nombre_backup, nuevo_nombre_absent.
Qed.

(** In general the marker goes before the final extension and again
    wherever the new name of the stem puts it. *)
Lemma nuevo_nombre_ext (stem ext : string) :
  ext = ".rsc" \/ ext = ".backup" ->
  Rotator.nuevo_nombre (stem +:+ ext)
  = Rotator.nuevo_nombre stem +:+ "-old" +:+ ext.
Proof.
  intros [-> | ->]; [apply nuevo_nombre_rsc | apply nuevo_nombre_backup].
Qed.

(** C4 at the failing input: ["config.backup.rsc"] is a candidate, and its
    new name carries the marker twice, ["config-old.backup-old.rsc"],
    where inserting it once before the final extension gives
    ["config.backup-old.rsc"]; a run over a directory holding the old
    entry performs exactly that rename. *)
Lemma marker_inserted_twice :
  Rotator.es_candidato "config.backup.rsc" = true
  /\ Rotator.nuevo_nombre "config.backup.rsc" = "config-old.backup-old.rsc"
  /\ Rotator.nuevo_nombre "config.backup.rsc" <> "config.backup-old.rsc"
  /\ renombres
       (Rotator.rotar Samples.keep_ctime Samples.siete_dias
          (fs_init {["config.backup.rsc" := 0%Q]}))
     = [("config.backup.rsc", "config-old.backup-old.rsc")].
Proof.
  split; [reflexivity |]. split; [reflexivity |].
  split; [by vm_compute | by vm_compute].
Qed.

(** C5 at the failing input: for the router name ["sw.backup"] and the
    date ["20240101"] the fetched file is named
    ["sw.backup_20240101_latest.rsc"], as claimed, but its rotation yields
    ["sw-old.backup_20240101_latest-old.rsc"] and not
    ["sw.backup_20240101_latest-old.rsc"]. *)
Lemma round_trip_breaks_on_router_name :
  Fetcher.nuevo_nombre_archivo "sw.backup" "20240101" "latest.rsc"
    = "sw.backup_20240101_latest.rsc"
  /\ Rotator.es_candidato "sw.backup_20240101_latest.rsc" = true
  /\ Rotator.nuevo_nombre
       (Fetcher.nuevo_nombre_archivo "sw.backup" "20240101" "latest.rsc")
     = "sw-old.backup_20240101_latest-old.rsc"
  /\ Rotator.nuevo_nombre
       (Fetcher.nuevo_nombre_archivo "sw.backup" "20240101" "latest.rsc")
     <> "sw.backup" +:+ "_" +:+ "20240101" +:+ "_latest-old.rsc".
Proof.
  split; [reflexivity |]. split; [reflexivity |].
  split; [reflexivity | by vm_compute].
Qed.

(** The two halves of the round trip that do hold: the fetched name is
    always [R_D_latest.rsc], and its rotation is [R_D_latest-old.rsc]
    whenever neither extension occurs in [R_D_latest]. *)
Lemma round_trip_clean (R D : string) :
  Fetcher.nuevo_nombre_archivo R D "latest.rsc"
    = R +:+ "_" +:+ D +:+ "_latest.rsc"
  /\ (Py.contains (R +:+ "_" +:+ D +:+ "_latest") ".rsc" = false ->
      Py.contains (R +:+ "_" +:+ D +:+ "_latest") ".backup" = false ->
      Rotator.nuevo_nombre (Fetcher.nuevo_nombre_archivo R D "latest.rsc")
      = R +:+ "_" +:+ D +:+ "_latest-old.rsc").
Proof.
  split; [done |]. intros H1 H2.
  assert (Fetcher.nuevo_nombre_archivo R D "latest.rsc"
          = (R +:+ "_" +:+ D +:+ "_latest") +:+ ".rsc") as ->.
  { unfold Fetcher.nuevo_nombre_archivo. by rewrite !app_assoc_str. }
  rewrite nuevo_nombre_stem by auto. by rewrite !app_assoc_str.
Qed.

(** ** Fleet orchestrator *)

Section FleetFacts.

Import Fleet.

Variable w : World.

Implicit Types (st : state) (ws : list (option (nat * list event))).

Lemma run_app sched sched' st :
  run w (sched ++ sched') st = run w sched' (run w sched st).
Proof.
  revert st. induction sched as [|who sched IH]; intros st; [done |].
  simpl. destruct (step w who st); apply IH.
Qed.

(** A property of the initial state that every move keeps holds after
    every run. *)
Lemma run_invariant (P : state -> Prop) :
  (forall who st st', P st -> step w who st = Some st' -> P st') ->
  forall sched st, P st -> P (run w sched st).
Proof.
  intros Hstep sched. induction sched as [|who sched IH]; intros st HP;
    [done |].
  simpl. destruct (step w who st) as [st' |] eqn:E; [| by apply IH].
  apply IH. by eapply Hstep.
Qed.

(** *** Counting over the worker list *)

Lemma sum_insert {A} (f : A -> nat) (l : list A) i old x :
  l !! i = Some old ->
  sum_list (map f (<[i := x]> l)) + f old = sum_list (map f l) + f x.
Proof.
  revert i. induction l as [|y l IH]; intros [|i] H; try done.
  - injection H as ->. simpl. lia.
  - simpl in *. specialize (IH i H). lia.
Qed.

Lemma held_le_length ws : held ws <= length ws.
Proof.
  unfold held. induction ws as [|[[id rest] |] ws IH]; simpl; [lia | | lia].
  destruct (holds rest); lia.
Qed.

(** *** Sessions inside one job *)

Lemma session_ok_holds b l : session_ok b l = true -> holds l = b.
Proof.
  revert b. induction l as [|ev l IH]; intros b H.
  - by destruct b.
  - destruct ev; simpl in *; try (by apply IH); by destruct b.
Qed.

Lemma session_ok_skip r n p t b (tr l : list event) :
  Forall (Fetcher.fetch_event_ok r n p t) tr ->
  session_ok b (tr ++ l) = session_ok b l.
Proof.
  induction 1 as [|ev tr Hev _ IH]; [done |].
  destruct ev; simpl in *; done.
Qed.

Lemma conectar_ssh_run r ip :
  Fetcher.conectar_ssh r ip []
  = match connect_outcome r with
    | Return _ => ([EvSessionOpen ip], Return (Some (SSHClientTo ip)))
    | Raise e =>
        if Fetcher.caught e
        then ([EvLog (match e with
                      | AuthenticationException => LogConnectAuth ip
                      | SSHException => LogConnectSSH ip e
                      | _ => LogConnectOS ip e
                      end)], Return None)
        else ([], Raise e)
    end.
Proof.
  unfold Fetcher.conectar_ssh, try_except, Fetcher.ssh_connect, mbind,
    M_bind, bind, Fetcher.call, Fetcher.emit.
  destruct (connect_outcome r) as [[] | e]; [done |]. by destruct e.
Qed.

(** A job opens at most one session and closes it before it ends. *)
Lemma job_events_session_ok j : session_ok false (job_events w j) = true.
Proof.
  unfold job_events, Fetcher.respaldar_router, mbind, M_bind, bind.
  rewrite conectar_ssh_run.
  destruct (connect_outcome _) as [[] | e].
  - match goal with
    | |- context [Fetcher.descargar_archivos ?r (Some ?c) ?n ?p ?t ?tr] =>
        destruct (descargar_archivos_behaves r n p t c tr)
          as (tr' & res & -> & Hok & _)
    end.
    simpl. by rewrite (session_ok_skip _ _ _ _ _ _ _ Hok).
  - by destruct (Fetcher.caught e).
Qed.

(** *** The bound on open sessions *)

Lemma opened_snoc tr g :
  opened (tr ++ [g])
  = opened tr + match g with GJob _ (EvSessionOpen _) => 1 | _ => 0 end.
Proof.
  unfold opened. rewrite List.filter_app, length_app. simpl.
  destruct g as [| | id ev | |]; try done. by destruct ev.
Qed.

Lemma closed_snoc tr g :
  closed (tr ++ [g])
  = closed tr + match g with GJob _ EvSessionClose => 1 | _ => 0 end.
Proof.
  unfold closed. rewrite List.filter_app, length_app. simpl.
  destruct g as [| | id ev | |]; try done. by destruct ev.
Qed.

Lemma sessions_inv_init : sessions_inv init.
Proof. repeat split. by repeat constructor. Qed.

Lemma Forall_insert_ok ws i x :
  Forall worker_ok ws -> worker_ok x -> Forall worker_ok (<[i := x]> ws).
Proof. intros. by apply Forall_insert. Qed.

Lemma sessions_inv_step who st st' :
  sessions_inv st -> step w who st = Some st' -> sessions_inv st'.
Proof.
  intros (Hcount & Hok & Hlen) Hstep. unfold held in Hcount.
  destruct who as [|i]; simpl in Hstep.
  - unfold step_main in Hstep. unfold sessions_inv, held.
    destruct (main st) as [| [|[[|ip [|nombre fila]] | e] rest] | p | | |];
      [destruct (rt_csv w) | .. ];
      try (destruct (queue st); [destruct (all_idle (workers st)) |]);
      simplify_eq; simpl; rewrite ?opened_snoc, ?closed_snoc, ?Nat.add_0_r;
      done.
  - unfold step_worker in Hstep.
    destruct (workers st !! i) as [[[id [|ev rest]] |] |] eqn:Hi;
      [| | destruct (queue st) as [|j q] eqn:Hq |]; simplify_eq.
    + (* the job has ended *)
      unfold sessions_inv. simpl.
      rewrite opened_snoc, closed_snoc, !Nat.add_0_r, length_insert.
      pose proof (sum_insert holding _ _ _ None Hi) as Hs. simpl in Hs.
      unfold held. split; [lia |]. split; [| done].
      by apply Forall_insert_ok.
    + (* one event of the job *)
      unfold sessions_inv. simpl.
      rewrite opened_snoc, closed_snoc, length_insert.
      pose proof (sum_insert holding _ _ _ (Some (id, rest)) Hi) as Hs.
      rewrite Forall_forall in Hok.
      assert (worker_ok (Some (id, ev :: rest))) as Hw.
      { apply Hok. by eapply list_elem_of_lookup_2. }
      rewrite <- Forall_forall in Hok. unfold held. simpl in Hs, Hw.
      destruct ev; simpl in Hw, Hs;
        try (split; [lia | split; [by apply Forall_insert_ok | done]]).
      * (* the session opens *)
        assert (holds rest = true) as Hr by by apply session_ok_holds.
        rewrite Hr in Hs. split; [lia |].
        split; [apply Forall_insert_ok; [done |]; simpl; by rewrite Hr
               | done].
      * (* the session closes *)
        assert (holds rest = false) as Hr by by apply session_ok_holds.
        rewrite Hr in Hs. split; [lia |].
        split; [apply Forall_insert_ok; [done |]; simpl; by rewrite Hr
               | done].
    + (* a worker takes a job *)
      unfold sessions_inv. simpl.
      rewrite opened_snoc, closed_snoc, !Nat.add_0_r, length_insert.
      pose proof (job_events_session_ok j) as Hj.
      pose proof (session_ok_holds _ _ Hj) as Hh.
      pose proof (sum_insert holding _ _ _
                    (Some (job_id j, job_events w j)) Hi) as Hs.
      simpl in Hs. rewrite Hh in Hs. unfold held.
      split; [lia |]. split; [| done].
      apply Forall_insert_ok; [done |]. simpl. by rewrite Hh.
Qed.

End FleetFacts.

(** C9. At every point of every run, whatever the router list, the
    routers' answers and the interleaving of the threads, the sessions
    opened and not yet closed number at most [max_workers], which is 4:
    each of them is held by a different worker thread. *)
Theorem sessions_bounded (w : Fleet.World) (sched : list nat) :
  let tr := Fleet.trace (Fleet.run w sched Fleet.init) in
  Fleet.closed tr <= Fleet.opened tr
  /\ Fleet.opened tr - Fleet.closed tr <= Fleet.max_workers
  /\ Fleet.max_workers = 4.
Proof.
  intros tr.
  destruct (run_invariant w Fleet.sessions_inv (sessions_inv_step w) sched
              Fleet.init sessions_inv_init) as (Hcount & _ & Hlen).
  fold tr in Hcount.
  pose proof (held_le_length (Fleet.workers (Fleet.run w sched Fleet.init))).
  split; [lia |]. split; [lia | done].
Qed.

(** The bound is reached: with ten routers, once the four worker threads
    have each taken a job and connected, four sessions are open, six jobs
    wait, and there is no fifth thread to take one. *)
Example four_sessions_with_ten_routers :
  let st :=
    Fleet.run Samples.mundo_diez
      (replicate 11 0 ++ [1; 1; 2; 2; 3; 3; 4; 4; 5; 5]) Fleet.init in
  Fleet.opened (Fleet.trace st) - Fleet.closed (Fleet.trace st) = 4
  /\ length (Fleet.queue st) = 6
  /\ Fleet.step Samples.mundo_diez 5 st = None.
Proof. by vm_compute. Qed.

Section FleetInvariants.

Import Fleet.

Variable w : World.

Implicit Types (st : state) (ws : list (option (nat * list event))).

Lemma rotations_snoc tr g :
  rotations (tr ++ [g])
  = rotations tr + match g with GRotate _ => 1 | _ => 0 end.
Proof.
  unfold rotations. rewrite List.filter_app, length_app. simpl.
  by destruct g.
Qed.

Lemma dispatched_snoc tr g :
  dispatched (tr ++ [g])
  = dispatched tr ++ match g with GDispatch j => [j] | _ => [] end.
Proof. unfold dispatched. rewrite omap_app. simpl. by destruct g. Qed.

Lemma done_ids_snoc tr g :
  done_ids (tr ++ [g])
  = done_ids tr ++ match g with GDone id => [id] | _ => [] end.
Proof. unfold done_ids. rewrite omap_app. simpl. by destruct g. Qed.

Lemma pares_snoc tr g :
  pares (tr ++ [g])
  = pares tr ++ match g with
                | GDispatch j => [(ip_router j, nombre_router_interno j)]
                | _ => []
                end.
Proof.
  unfold pares. rewrite dispatched_snoc, map_app. by destruct g.
Qed.

Lemma all_idle_lookup ws i wk :
  all_idle ws = true -> ws !! i = Some wk -> wk = None.
Proof.
  unfold all_idle. rewrite forallb_forall. intros H Hi.
  apply list_elem_of_lookup_2, list_elem_of_In, H in Hi. by destruct wk.
Qed.

Lemma all_idle_false ws :
  all_idle ws = false -> exists i id rest, ws !! i = Some (Some (id, rest)).
Proof.
  induction ws as [|[[id rest] |] ws IH]; simpl; intros H; [done | |].
  - by exists 0, id, rest.
  - destruct (IH H) as (i & id & rest & Hi). by exists (S i), id, rest.
Qed.

(** A worker can move only while a job is waiting or running. *)
Lemma step_worker_busy i st st' :
  step_worker w i st = Some st' ->
  queue st = [] -> all_idle (workers st) = true -> False.
Proof.
  unfold step_worker. intros H Hq Hidle.
  destruct (workers st !! i) as [wk |] eqn:Hi; [| done].
  apply (all_idle_lookup _ _ _ Hidle) in Hi as ->. by rewrite Hq in H.
Qed.

Lemma step_worker_shape i st st' :
  step_worker w i st = Some st' ->
  main st' = main st
  /\ next_id st' = next_id st
  /\ exists g, trace st' = trace st ++ [g]
               /\ match g with
                  | GStart _ | GJob _ _ | GDone _ => True
                  | _ => False
                  end.
Proof.
  unfold step_worker. intros H.
  destruct (workers st !! i) as [[[id [|ev rest]] |] |];
    [| | destruct (queue st) |]; simplify_eq; simpl;
    (split; [done |]; split; [done |]; eexists; split; [reflexivity | done]).
Qed.

Lemma main_inv_init : main_inv w init.
Proof. done. Qed.

Lemma leer_cons_ok ip nombre fila rest :
  leer (Return (ip :: nombre :: fila) :: rest)
  = ((ip, nombre) :: fst (leer rest), snd (leer rest)).
Proof. simpl. by destruct (leer rest). Qed.

Lemma main_inv_step who st st' :
  main_inv w st -> step w who st = Some st' -> main_inv w st'.
Proof.
  intros Hinv Hstep. destruct who as [|i]; simpl in Hstep.
  - unfold step_main in Hstep. unfold main_inv in *.
    destruct (main st) as [| [|[fila | e] rest] | p | | |].
    + destruct Hinv as (Htr & Hq & Hidle).
      destruct (rt_csv w) as [filas | e] eqn:Hcsv; simplify_eq; simpl.
      * exists filas. by rewrite Htr.
      * split; [done |]. split; [done |]. by left.
    + destruct Hinv as (filas & Hcsv & Hp & He & Hrot).
      simplify_eq; simpl. exists filas. rewrite app_nil_r in Hp. done.
    + destruct Hinv as (filas & Hcsv & Hp & He & Hrot).
      destruct fila as [|ip [|nombre fila]]; simplify_eq; simpl.
      * exists filas. rewrite app_nil_r in Hp. done.
      * exists filas. rewrite app_nil_r in Hp. done.
      * exists filas. rewrite leer_cons_ok in Hp, He. simpl in Hp, He.
        rewrite pares_snoc, rotations_snoc, <- app_assoc. simpl.
        rewrite Nat.add_0_r. done.
    + destruct Hinv as (filas & Hcsv & Hp & He & Hrot).
      simplify_eq; simpl. exists filas. rewrite app_nil_r in Hp. done.
    + destruct Hinv as (filas & Hcsv & Hp & He & Hrot).
      destruct (queue st) eqn:Hq; [| done].
      destruct (all_idle (workers st)) eqn:Hidle; [| done].
      destruct p as [e |]; simplify_eq; simpl.
      * split; [done |]. split; [done |]. right; left.
        split; [done |]. by exists filas.
      * by exists filas.
    + destruct Hinv as (filas & Hcsv & Hp & He & Hrot & Hq & Hidle).
      assert (rotated w st') as Hrotated.
      { simplify_eq; simpl. exists filas, (trace st). unfold rotated. simpl.
        rewrite pares_snoc, app_nil_r. done. }
      destruct (rotator_outcome w) as [[] | e] eqn:Hout; simplify_eq; simpl.
      * done.
      * split; [done |]. split; [done |]. by right; right.
    + done.
    + done.
  - pose proof (step_worker_busy i st st' Hstep) as Hbusy.
    destruct (step_worker_shape i st st' Hstep)
      as (Hm & _ & g & Htr & Hg).
    assert (pares (trace st') = pares (trace st)) as Hp.
    { rewrite Htr, pares_snoc. destruct g; try done; apply app_nil_r. }
    assert (rotations (trace st') = rotations (trace st)) as Hr.
    { rewrite Htr, rotations_snoc. destruct g; try done; lia. }
    unfold main_inv in *. rewrite Hm, Hp, Hr.
    destruct (main st) as [| rest | p | | |]; try done.
    + destruct Hinv as (_ & ? & ?). exfalso; auto.
    + destruct Hinv as (filas & _ & _ & _ & _ & ? & ?). exfalso; auto.
    + destruct Hinv as ((filas & pre & _ & _ & _ & _ & _ & ? & ?) & _).
      exfalso; auto.
    + destruct Hinv as (? & ? & _). exfalso; auto.
Qed.

Lemma accounted_init : accounted init.
Proof. by intros j Hj. Qed.

Lemma length_workers_step who st st' :
  step w who st = Some st' -> length (workers st') = length (workers st).
Proof.
  destruct who as [|i]; simpl.
  - unfold step_main.
    destruct (main st) as [| [|[[|ip [|nombre fila]] | e] rest] | p | | |];
      [destruct (rt_csv w) | .. ];
      try (destruct (queue st); [destruct (all_idle (workers st)) |]);
      intros; by simplify_eq.
  - unfold step_worker.
    destruct (workers st !! i) as [[[id [|ev rest]] |] |];
      [| | destruct (queue st) |]; intros; simplify_eq; simpl;
      by rewrite ?length_insert.
Qed.

Lemma accounted_same st st' :
  queue st' = queue st -> workers st' = workers st ->
  trace st' = trace st -> accounted st -> accounted st'.
Proof.
  intros Hq Hw Ht H j. rewrite Hq, Hw, Ht. apply H.
Qed.

Lemma accounted_step who st st' :
  accounted st -> step w who st = Some st' -> accounted st'.
Proof.
  intros Hacc Hstep. destruct who as [|i]; simpl in Hstep.
  - unfold step_main in Hstep.
    destruct (main st) as [| [|[[|ip [|nombre fila]] | e] rest] | p | | |];
      [destruct (rt_csv w) | | | | | |
       destruct (queue st) eqn:Hq; [destruct (all_idle (workers st)) |]
       | | |];
      simplify_eq;
      try (by apply (accounted_same st)).
    + (* a job is submitted *)
      intros j. cbn [trace queue workers].
      rewrite dispatched_snoc, done_ids_snoc, app_nil_r, in_app_iff.
      intros [Hj | [<- | []]].
      * destruct (Hacc j Hj) as [Hin | [Hw | Hd]].
        -- left. apply in_app_iff. by left.
        -- right; left; done.
        -- right; right; done.
      * left. apply in_app_iff. right. by left.
    + (* the rotator is called *)
      intros j. cbn [trace queue workers].
      rewrite dispatched_snoc, done_ids_snoc, !app_nil_r.
      intros Hj. by destruct (Hacc j Hj) as [? | [? | ?]]; auto.
  - unfold step_worker in Hstep.
    destruct (workers st !! i) as [[[id [|ev rest]] |] |] eqn:Hi;
      [| | destruct (queue st) as [|j0 q] eqn:Hq |]; simplify_eq;
      intros j; cbn [trace queue workers];
      rewrite dispatched_snoc, done_ids_snoc, app_nil_r;
      intros Hj; destruct (Hacc j Hj) as [Hin | [(i' & r' & Hw) | Hd]].
    + auto.
    + destruct (decide (i' = i)) as [-> | Hne].
      * right; right. apply in_app_iff. right. left. congruence.
      * right; left. exists i', r'. by rewrite list_lookup_insert_ne.
    + right; right. apply in_app_iff. by left.
    + auto.
    + right; left. destruct (decide (i' = i)) as [-> | Hne].
      * exists i, rest. rewrite list_lookup_insert_eq; [congruence |].
        by eapply lookup_lt_Some.
      * exists i', r'. by rewrite list_lookup_insert_ne.
    + right; right. by rewrite app_nil_r.
    + rewrite Hq in Hin. destruct Hin as [-> | Hin]; [| auto].
      right; left. exists i, (job_events w j).
      rewrite list_lookup_insert_eq; [done |]. by eapply lookup_lt_Some.
    + right; left. destruct (decide (i' = i)) as [-> | Hne]; [congruence |].
      exists i', r'. by rewrite list_lookup_insert_ne.
    + right; right. by rewrite app_nil_r.
Qed.

End FleetInvariants.

Section FleetTermination.

Import Fleet.

Variable w : World.

Implicit Types (st : state).

(** Every move uses up some of the work still to do. *)
Lemma step_decreases who st st' :
  step w who st = Some st' -> measure w st' < measure w st.
Proof.
  intros Hstep. destruct who as [|i]; simpl in Hstep.
  - unfold step_main in Hstep. unfold measure, main_weight.
    destruct (main st) as [| [|[[|ip [|nombre fila]] | e] rest] | p | | |];
      [destruct (rt_csv w) | | | | | |
       destruct (queue st) eqn:Hq; [destruct (all_idle (workers st)) |]
       | | |];
      simplify_eq; simpl; try lia.
    + rewrite map_app, sum_list_with_app. simpl. lia.
    + destruct p; lia.
    + destruct (rotator_outcome w); lia.
  - unfold step_worker in Hstep. unfold measure, main_weight.
    destruct (workers st !! i) as [[[id [|ev rest]] |] |] eqn:Hi;
      [| | destruct (queue st) as [|j q] eqn:Hq |]; simplify_eq; simpl.
    + pose proof (sum_insert worker_weight _ _ _ None Hi) as Hs.
      simpl in Hs. lia.
    + pose proof (sum_insert worker_weight _ _ _ (Some (id, rest)) Hi) as Hs.
      simpl in Hs. lia.
    + pose proof (sum_insert worker_weight _ _ _
                    (Some (job_id j, job_events w j)) Hi) as Hs.
      simpl in Hs. lia.
Qed.

(** While the run is not over some thread can move. *)
Lemma progress st :
  terminated st = false -> length (workers st) = max_workers ->
  exists who st', step w who st = Some st'.
Proof.
  intros Hterm Hlen.
  destruct (all_idle (workers st)) eqn:Hidle.
  - destruct (queue st) as [|j q] eqn:Hq.
    + exists 0. simpl. unfold step_main.
      unfold terminated in Hterm.
      destruct (main st) as [| [|[[|ip [|nombre fila]] | e] rest] | p | | |];
        [destruct (rt_csv w) | ..]; rewrite ?Hq, ?Hidle; try done; eauto.
    + exists 1. simpl. unfold step_worker.
      destruct (workers st) as [|wk ws] eqn:Hws; [done |].
      simpl in Hidle. destruct wk; [done |]. simpl. rewrite Hq. eauto.
  - apply all_idle_false in Hidle as (i & id & rest & Hi).
    exists (S i). simpl. unfold step_worker. rewrite Hi.
    destruct rest; eauto.
Qed.

(** From any state with its four worker threads the run can be brought
    to its end. *)
Lemma can_terminate n st :
  measure w st < n -> length (workers st) = max_workers ->
  exists sched, terminated (run w sched st) = true.
Proof.
  revert st. induction n as [|n IH]; intros st Hn Hlen; [lia |].
  destruct (terminated st) eqn:Hterm; [by exists [] |].
  destruct (progress st Hterm Hlen) as (who & st' & Hstep).
  destruct (IH st') as (sched & Hsched).
  - pose proof (step_decreases _ _ _ Hstep). lia.
  - by rewrite (length_workers_step _ _ _ _ Hstep).
  - exists (who :: sched). simpl. by rewrite Hstep.
Qed.

Lemma length_workers_run sched :
  length (workers (run w sched init)) = max_workers.
Proof.
  apply (run_invariant w (fun st => length (workers st) = max_workers));
    [| done].
  intros who st st' H Hstep. by rewrite (length_workers_step _ _ _ _ Hstep).
Qed.

Lemma main_inv_run sched : main_inv w (run w sched init).
Proof.
  apply (run_invariant w (main_inv w));
    [apply main_inv_step | apply main_inv_init].
Qed.

Lemma accounted_run sched : accounted (run w sched init).
Proof.
  apply (run_invariant w accounted);
    [apply accounted_step | apply accounted_init].
Qed.

(** Once the main thread is past the pool, every submitted job is done. *)
Lemma all_done st :
  accounted st -> queue st = [] -> all_idle (workers st) = true ->
  forall j, In j (dispatched (trace st)) -> In (job_id j) (done_ids (trace st)).
Proof.
  intros Hacc Hq Hidle j Hj.
  destruct (Hacc j Hj) as [Hin | [(i & rest & Hw) | Hd]]; [| | done].
  - by rewrite Hq in Hin.
  - by apply (all_idle_lookup _ _ _ Hidle) in Hw.
Qed.

Lemma rotations_zero_no_rotate tr p : rotations tr = 0 -> ~ In (GRotate p) tr.
Proof.
  unfold rotations. intros H Hin.
  assert (In (GRotate p)
            (List.filter (fun g => match g with
                                   | GRotate _ => true
                                   | _ => false
                                   end) tr)) as Hf
    by by apply filter_In.
  destruct (List.filter _ tr); [done | simpl in H; lia].
Qed.

(** A trace that ends with its only rotation splits at a rotation in one
    way only. *)
Lemma split_at_rotation pre p post pre' p' :
  pre ++ GRotate p :: post = pre' ++ [GRotate p'] -> rotations pre' = 0 ->
  pre = pre' /\ p = p' /\ post = [].
Proof.
  intros Heq Hrot. destruct post as [|g post _] using rev_ind.
  - apply app_inj_tail in Heq as [-> [= ->]]. done.
  - exfalso. rewrite app_comm_cons, app_assoc in Heq.
    apply app_inj_tail in Heq as [<- _].
    apply (rotations_zero_no_rotate _ p Hrot), in_app_iff. right. by left.
Qed.

End FleetTermination.

(** *** Claims about the orchestrator *)

Lemma rotated_facts (w : Fleet.World) (st : Fleet.state) :
  Fleet.rotated w st ->
  Fleet.list_read_ok w = true
  /\ Fleet.rotations (Fleet.trace st) = 1
  /\ Fleet.queue st = [] /\ Fleet.all_idle (Fleet.workers st) = true.
Proof.
  intros (filas & pre & Hcsv & _ & He & Htr & Hrot & Hq & Hidle).
  unfold Fleet.list_read_ok. rewrite Hcsv, He, Htr, rotations_snoc, Hrot.
  done.
Qed.

Lemma terminated_stuck (w : Fleet.World) (st : Fleet.state) :
  Fleet.main_inv w st -> Fleet.terminated st = true ->
  forall sched, Fleet.run w sched st = st.
Proof.
  intros Hinv Hterm sched. induction sched as [|who sched IH]; [done |].
  simpl. destruct (Fleet.step w who st) as [st' |] eqn:Hstep; [| done].
  exfalso. unfold Fleet.terminated in Hterm. unfold Fleet.main_inv in Hinv.
  destruct who as [|i]; simpl in Hstep.
  - unfold Fleet.step_main in Hstep. by destruct (Fleet.main st).
  - destruct (Fleet.main st); try done.
    + destruct Hinv as ((filas & pre & _ & _ & _ & _ & _ & ? & ?) & _).
      by eapply step_worker_busy.
    + destruct Hinv as (? & ? & _). by eapply step_worker_busy.
Qed.

(** C1, as stated, fails: with a router list whose second row has a single
    field, the job of the first row is submitted and runs to its end, the
    second row raises [IndexError], and the run is over without the
    rotator having been called. *)
Lemma rotation_skipped_on_short_row :
  let st :=
    Fleet.run Samples.mundo_fila_corta
      ([0; 0; 0] ++ replicate 15 1 ++ [0]) Fleet.init in
  Fleet.main st = Fleet.MAborted IndexError
  /\ Fleet.dispatched (Fleet.trace st) = [Fleet.Job 0 "10.0.0.1" "edge1"]
  /\ Fleet.done_ids (Fleet.trace st) = [0]
  /\ Fleet.rotations (Fleet.trace st) = 0
  /\ forall sched, Fleet.run Samples.mundo_fila_corta sched st = st.
Proof.
  intros st.
  assert (Fleet.main st = Fleet.MAborted IndexError) as Hm by by vm_compute.
  split; [exact Hm |]. split; [by vm_compute |]. split; [by vm_compute |].
  split; [by vm_compute |].
  apply terminated_stuck.
  - apply main_inv_run.
  - unfold Fleet.terminated. by rewrite Hm.
Qed.

(** C1, amended. In every run, at the moment the rotator is called every
    submitted job has ended, the call is on the working directory all jobs
    wrote to, and nothing happens afterwards, so the rotator is called at
    most once; a run that is over has called it exactly once when the
    whole router list could be read and not at all otherwise, and in both
    cases every submitted job has ended; and every run can be brought to
    its end. *)
Theorem rotation_after_barrier (w : Fleet.World) (sched : list nat) :
  let st := Fleet.run w sched Fleet.init in
  (forall pre p post,
     Fleet.trace st = pre ++ Fleet.GRotate p :: post ->
     p = Fleet.ruta_respaldo_principal w
     /\ post = []
     /\ Fleet.rotations pre = 0
     /\ forall j, In j (Fleet.dispatched (Fleet.trace st)) ->
                  In (Fleet.job_id j) (Fleet.done_ids pre))
  /\ (Fleet.terminated st = true ->
      Fleet.rotations (Fleet.trace st)
        = (if Fleet.list_read_ok w then 1 else 0)
      /\ forall j, In j (Fleet.dispatched (Fleet.trace st)) ->
                   In (Fleet.job_id j) (Fleet.done_ids (Fleet.trace st)))
  /\ (exists sched',
        Fleet.terminated (Fleet.run w (sched ++ sched') Fleet.init) = true).
Proof.
  intros st.
  pose proof (main_inv_run w sched) as Hinv. fold st in Hinv.
  pose proof (accounted_run w sched) as Hacc. fold st in Hacc.
  split; [| split].
  - intros pre p post Htr. unfold Fleet.main_inv in Hinv.
    assert (Fleet.rotations (Fleet.trace st) = 0 -> False) as Hno.
    { intros H0. apply (rotations_zero_no_rotate _ p H0).
      rewrite Htr. apply in_app_iff. right. by left. }
    assert (Fleet.rotated w st ->
            p = Fleet.ruta_respaldo_principal w
            /\ post = []
            /\ Fleet.rotations pre = 0
            /\ forall j, In j (Fleet.dispatched (Fleet.trace st)) ->
                         In (Fleet.job_id j) (Fleet.done_ids pre)) as Hrotated.
    { intros (filas & pre' & _ & _ & _ & Htr' & Hrot & Hq & Hidle).
      rewrite Htr' in Htr. symmetry in Htr.
      destruct (split_at_rotation _ _ _ _ _ Htr Hrot) as (-> & -> & ->).
      repeat split; try done. intros j Hj.
      pose proof (all_done st Hacc Hq Hidle j Hj) as Hd.
      rewrite Htr', done_ids_snoc, app_nil_r in Hd. done. }
    destruct (Fleet.main st).
    + destruct Hinv as (H & _). rewrite H in Htr. by destruct pre.
    + destruct Hinv as (? & _ & _ & _ & H). by destruct Hno.
    + destruct Hinv as (? & _ & _ & _ & H). by destruct Hno.
    + destruct Hinv as (? & _ & _ & _ & H & _). by destruct Hno.
    + destruct Hinv as (H & _). by apply Hrotated.
    + destruct Hinv as (_ & _ & [[_ H] | [[H _] | [H _]]]).
      * rewrite H in Htr. by destruct pre.
      * by destruct Hno.
      * by apply Hrotated.
  - intros Hterm. unfold Fleet.terminated in Hterm.
    unfold Fleet.main_inv in Hinv.
    destruct (Fleet.main st); try done.
    + destruct Hinv as (H & _).
      destruct (rotated_facts w st H) as (-> & -> & Hq & Hidle).
      split; [done | by apply all_done].
    + destruct Hinv as (Hq & Hidle & Hwhy).
      split; [| by apply all_done].
      destruct Hwhy as [[Hcsv Htr] | [[Hrot (filas & Hcsv & _ & He)] | [H _]]].
      * unfold Fleet.list_read_ok. by rewrite Hcsv, Htr.
      * unfold Fleet.list_read_ok. by rewrite Hcsv, He, Hrot.
      * by destruct (rotated_facts w st H) as (-> & -> & _).
  - destruct (can_terminate w (S (Fleet.measure w st)) st) as (sched' & H).
    + lia.
    + apply length_workers_run.
    + exists sched'. by rewrite run_app.
Qed.

(** C6, as stated, fails: the list is read row by row while jobs are
    submitted.  With a list whose second line is empty, the job of the
    first row is submitted, taken by a worker and has its session open
    while two rows are still unread; the empty line then raises
    [IndexError], and the run ends with that one job done, the third row
    never read, and no rotation. *)
Lemma dispatch_before_list_is_read :
  let st1 := Fleet.run Samples.mundo_linea_vacia [0; 0; 1; 1] Fleet.init in
  let st2 :=
    Fleet.run Samples.mundo_linea_vacia ([0] ++ replicate 14 1 ++ [0]) st1 in
  Fleet.main st1
    = Fleet.MLoop [Return []; Return ["10.0.0.3"; "edge3"]]
  /\ Fleet.trace st1
     = [Fleet.GDispatch (Fleet.Job 0 "10.0.0.1" "edge1"); Fleet.GStart 0;
        Fleet.GJob 0 (EvSessionOpen "10.0.0.1")]
  /\ Fleet.main st2 = Fleet.MAborted IndexError
  /\ Fleet.pares (Fleet.trace st2) = [("10.0.0.1", "edge1")]
  /\ Fleet.done_ids (Fleet.trace st2) = [0]
  /\ Fleet.rotations (Fleet.trace st2) = 0.
Proof. by vm_compute. Qed.

(** C6, amended. A router list that cannot be opened ends the run before
    anything else happens.  Otherwise the rows are read one at a time and
    each job is submitted as soon as its row is read: the pairs submitted
    so far are a prefix of the readable rows, and while rows remain unread
    they are exactly the rows read; nothing is submitted before the list
    is opened.  When the run is over, every readable row has been
    submitted and every submitted job has ended; the run has ended with
    the exception of the first unusable row if there is one, and otherwise
    as the rotator call ended, normally or with the exception that call
    raised.  So a run is aborted by the router list, or else by the
    rotator call, which comes after the list has been read whole and every
    job has ended; whatever the routers answer, no job aborts it. *)
Theorem list_read_streams (w : Fleet.World) (sched : list nat) :
  let st := Fleet.run w sched Fleet.init in
  let all_jobs_done_in := fun tr =>
    forall j, In j (Fleet.dispatched (Fleet.trace st)) ->
              In (Fleet.job_id j) (Fleet.done_ids tr) in
  match Fleet.rt_csv w with
  | Raise e =>
      Fleet.trace st = []
      /\ (Fleet.main st = Fleet.MOpen \/ Fleet.main st = Fleet.MAborted e)
  | Return filas =>
      (exists rest,
         Fleet.pares (Fleet.trace st) ++ rest = fst (Fleet.leer filas))
      /\ (forall rest,
            Fleet.main st = Fleet.MLoop rest ->
            Fleet.pares (Fleet.trace st) ++ fst (Fleet.leer rest)
            = fst (Fleet.leer filas))
      /\ (Fleet.terminated st = true ->
          Fleet.pares (Fleet.trace st) = fst (Fleet.leer filas)
          /\ all_jobs_done_in (Fleet.trace st)
          /\ Fleet.main st = match snd (Fleet.leer filas) with
                             | Some e => Fleet.MAborted e
                             | None =>
                                 match Fleet.rotator_outcome w with
                                 | Return _ => Fleet.MFinished
                                 | Raise e => Fleet.MAborted e
                                 end
                             end)
  end
  /\ (forall e,
        Fleet.main st = Fleet.MAborted e ->
        Fleet.rt_csv w = Raise e
        \/ (exists filas,
              Fleet.rt_csv w = Return filas
              /\ snd (Fleet.leer filas) = Some e
              /\ Fleet.rotations (Fleet.trace st) = 0
              /\ all_jobs_done_in (Fleet.trace st))
        \/ (Fleet.list_read_ok w = true
            /\ Fleet.rotator_outcome w = Raise e
            /\ exists pre,
                 Fleet.trace st
                 = pre ++ [Fleet.GRotate (Fleet.ruta_respaldo_principal w)]
                 /\ all_jobs_done_in pre))
  /\ (Fleet.main st = Fleet.MOpen -> Fleet.trace st = []).
Proof.
  intros st all_jobs_done_in.
  pose proof (main_inv_run w sched) as Hinv. fold st in Hinv.
  pose proof (accounted_run w sched) as Hacc. fold st in Hacc.
  assert (Fleet.rotated w st ->
          exists filas pre,
            Fleet.rt_csv w = Return filas
            /\ Fleet.pares (Fleet.trace st) = fst (Fleet.leer filas)
            /\ snd (Fleet.leer filas) = None
            /\ Fleet.trace st
               = pre ++ [Fleet.GRotate (Fleet.ruta_respaldo_principal w)]
            /\ all_jobs_done_in (Fleet.trace st)
            /\ all_jobs_done_in pre) as Hrotated.
  { intros (filas & pre & Hcsv & Hp & He & Htr & _ & Hq & Hidle).
    exists filas, pre. split_and!; try done.
    - intros j Hj. by apply all_done.
    - intros j Hj. pose proof (all_done st Hacc Hq Hidle j Hj) as Hd.
      by rewrite Htr, done_ids_snoc, app_nil_r in Hd. }
  unfold Fleet.main_inv, Fleet.terminated in *.
  split; [| split].
  - destruct (Fleet.rt_csv w) as [filas | e] eqn:Hcsv.
    + destruct (Fleet.main st) as [| rest | p | | | e].
      * destruct Hinv as (-> & _). split; [by eexists |]. by split.
      * destruct Hinv as (? & [= <-] & Hp & _ & _).
        split; [by eexists |]. split; [| done]. by intros ? [= <-].
      * destruct Hinv as (? & [= <-] & Hp & _ & _).
        split; [exists []; by rewrite app_nil_r |]. by split.
      * destruct Hinv as (? & [= <-] & Hp & _).
        split; [exists []; by rewrite app_nil_r |]. by split.
      * destruct Hinv as (H & Hout).
        destruct (Hrotated H) as (? & pre & [= <-] & Hp & He & _ & Hd & _).
        split; [exists []; by rewrite app_nil_r |]. split; [done |].
        intros _. by rewrite He, Hout.
      * destruct Hinv
          as (Hq & Hidle
              & [[[=] _] | [(_ & ? & [= <-] & Hp & He) | [H Hout]]]).
        -- split; [exists []; by rewrite app_nil_r |]. split; [done |].
           intros _. rewrite He. split; [done |]. split; [| done].
           intros j Hj. by apply all_done.
        -- destruct (Hrotated H) as (? & pre & [= <-] & Hp & He & _ & Hd & _).
           split; [exists []; by rewrite app_nil_r |]. split; [done |].
           intros _. by rewrite He, Hout.
    + destruct (Fleet.main st) as [| rest | p | | | e'].
      * destruct Hinv as (-> & _). auto.
      * by destruct Hinv as (? & [=] & _).
      * by destruct Hinv as (? & [=] & _).
      * by destruct Hinv as (? & [=] & _).
      * destruct Hinv as (H & _).
        by destruct (Hrotated H) as (? & ? & [=] & _).
      * destruct Hinv
          as (_ & _ & [[[= <-] ->] | [(_ & ? & [=] & _) | [H _]]]);
          [auto |].
        by destruct (Hrotated H) as (? & ? & [=] & _).
  - intros e Hm. rewrite Hm in Hinv.
    destruct Hinv
      as (Hq & Hidle
          & [[-> _] | [(Hrot & filas & -> & _ & He) | [H Hout]]]).
    + by left.
    + right; left. exists filas. split_and!; try done.
      intros j Hj. by apply all_done.
    + right; right.
      destruct (rotated_facts w st H) as (Hok & _).
      destruct (Hrotated H) as (_ & pre & _ & _ & _ & Htr & _ & Hd).
      split; [done |]. split; [done |]. by exists pre.
  - intros Hm. rewrite Hm in Hinv. by destruct Hinv as (-> & _).
Qed.

(** The rotator call is not guarded: when the working directory cannot be
    listed, the exception leaves the script after the one job has run to
    its end. *)
Example rotator_failure_aborts :
  let st :=
    Fleet.run Samples.mundo_sin_listado
      ([0; 0; 0] ++ replicate 15 1 ++ [0; 0]) Fleet.init in
  Fleet.main st = Fleet.MAborted PermissionError
  /\ Fleet.done_ids (Fleet.trace st) = [0]
  /\ Fleet.rotations (Fleet.trace st) = 1
  /\ last (Fleet.trace st) = Some (Fleet.GRotate "/srv/bk").
Proof. by vm_compute. Qed.

(* ===================================================================== *)
(** * Part III. Further properties of the code *)
(* ===================================================================== *)

(** ** What a rotation run does to the directory and the log *)

Section RotatorRun.

Variable ctime_renamed : Q -> Q -> Q.
Variable ahora : Q.

Implicit Types (st : fs_state) (d : gmap string Q) (n : string).

(** A run over the listing of [d] changes the state by renames of due
    entries of [d] only, each found as [d] had it: an invariant kept by
    such renames holds after the run. *)
Lemma rotar_run_inv d (I : fs_state -> Prop) :
  I (fs_init d) ->
  (forall x t st,
     I st -> Rotator.debe_rotar ahora d x = true ->
     dir st !! x = Some t -> d !! x = Some t ->
     I (FsState (<[Rotator.nuevo_nombre x := ctime_renamed t ahora]>
                   (delete x (dir st)))
                (renombres st ++ [(x, Rotator.nuevo_nombre x)])
                (fs_log st ++ [LogRenamed x (Rotator.nuevo_nombre x)]))) ->
  I (Rotator.rotar ctime_renamed ahora (fs_init d)).
Proof.
  intros Hinit Hstep.
  pose (J := fun (l : list string) st =>
    NoDup l
    /\ (forall n, n ∈ l -> is_Some (d !! n))
    /\ (forall n, n ∈ l -> Rotator.es_candidato n = true ->
                  dir st !! n = d !! n)
    /\ I st).
  destruct (rotar_loop_inv ctime_renamed ahora J)
    with (l := Rotator.os_listdir d) (st := fs_init d)
    as (st' & Hrun & _ & _ & _ & Hend).
  - intros x l st st' (Hnd & Hdom & Hsame & HI) Hp.
    apply NoDup_cons in Hnd as [Hx Hnd].
    assert (forall n, n ∈ l -> is_Some (d !! n)) as Hdom'.
    { intros n Hn. apply Hdom. by right. }
    assert (forall n, n ∈ l -> Rotator.es_candidato n = true ->
              dir st !! n = d !! n) as Hsame'.
    { intros n Hn. apply Hsame. by right. }
    destruct Hp as [_ _ | Hc Hnone | t Hc Hxt Ht].
    + done.
    + exfalso. rewrite Hsame in Hnone by (done || by left).
      destruct (Hdom x) as [t Ht]; [by left | congruence].
    + assert (d !! x = Some t) as Hdx.
      { rewrite <- Hsame by (done || by left). done. }
      split; [done |]. split; [done |]. split.
      * intros n Hn Hcn. simpl.
        assert (Rotator.nuevo_nombre x <> n) by by apply nuevo_nombre_neq.
        assert (x <> n) by (intros ->; done).
        rewrite lookup_insert_ne, lookup_delete_ne by done. auto.
      * apply Hstep; try done.
        unfold Rotator.debe_rotar. by rewrite Hc, Hdx.
  - split; [apply NoDup_os_listdir |].
    split; [intros n Hn; by apply elem_of_os_listdir |]. by split.
  - unfold Rotator.rotar, Rotator.renombrar_backups_antiguos.
    simpl. by rewrite Hrun.
Qed.

Lemma debe_rotar_candidato d x :
  Rotator.debe_rotar ahora d x = true -> Rotator.es_candidato x = true.
Proof. unfold Rotator.debe_rotar. by intros [? _]%andb_true_iff. Qed.

End RotatorRun.

(** X1. A rotation run only renames.  An entry that is not a candidate
    (a foreign file or an already superseded backup) is still there after
    the run; every entry is still there under its own name or under its
    new name; a name in the directory after the run was there before or
    is the new name of an entry that was due; an entry that is neither a
    candidate nor the new name of a due entry is exactly as it was; and
    the directory has no more entries than before. *)
Theorem rotation_only_renames
    (ctime_renamed : Q -> Q -> Q) (ahora : Q) (d : gmap string Q) :
  let final := dir (Rotator.rotar ctime_renamed ahora (fs_init d)) in
  (forall n, Rotator.es_candidato n = false ->
             is_Some (d !! n) -> is_Some (final !! n))
  /\ (forall n, is_Some (d !! n) ->
                is_Some (final !! n)
                \/ is_Some (final !! Rotator.nuevo_nombre n))
  /\ (forall n, is_Some (final !! n) ->
                is_Some (d !! n)
                \/ exists m, Rotator.debe_rotar ahora d m = true
                             /\ n = Rotator.nuevo_nombre m)
  /\ (forall n, Rotator.es_candidato n = false ->
                (forall m, Rotator.debe_rotar ahora d m = true ->
                           Rotator.nuevo_nombre m <> n) ->
                final !! n = d !! n)
  /\ size final <= size d.
Proof.
  intros final.
  assert (forall n, Rotator.es_candidato n = false ->
            is_Some (d !! n) -> is_Some (final !! n)) as Hkeep.
  { intros n Hc Hn. unfold final.
    apply (rotar_run_inv ctime_renamed ahora d
             (fun st => is_Some (dir st !! n))); [done |].
    intros x t st HI Hd _ _. simpl.
    apply lookup_insert_is_Some'. right.
    apply lookup_delete_is_Some. split; [| done].
    intros ->. apply debe_rotar_candidato in Hd. congruence. }
  split; [exact Hkeep |]. split; [| split; [| split]].
  - intros n [t Hn]. destruct (Rotator.es_candidato n) eqn:Hc.
    + pose proof (rotar_lookup_candidato ctime_renamed ahora d n t Hn Hc)
        as Hl. fold final in Hl.
      destruct (Qgtb (Rotator.antiguedad_dias ahora t) DIAS_MAXIMOS) eqn:E.
      * right. apply rotar_lookup_nuevo.
        unfold Rotator.debe_rotar. by rewrite Hc, Hn.
      * left. rewrite Hl. eauto.
    + left. apply Hkeep; eauto.
  - unfold final.
    apply (rotar_run_inv ctime_renamed ahora d
             (fun st => forall n, is_Some (dir st !! n) ->
                is_Some (d !! n)
                \/ exists m, Rotator.debe_rotar ahora d m = true
                             /\ n = Rotator.nuevo_nombre m)); [by left |].
    intros x t st HI Hd _ _ n. simpl.
    rewrite lookup_insert_is_Some', lookup_delete_is_Some.
    intros [<- | [_ Hn]]; [right; eauto | by apply HI].
  - intros n Hc Hnot. unfold final.
    apply (rotar_run_inv ctime_renamed ahora d
             (fun st => dir st !! n = d !! n)); [done |].
    intros x t st HI Hd _ _. simpl.
    rewrite lookup_insert_ne by by apply Hnot.
    rewrite lookup_delete_ne; [done |].
    intros ->. apply debe_rotar_candidato in Hd. congruence.
  - unfold final.
    apply (rotar_run_inv ctime_renamed ahora d
             (fun st => size (dir st) <= size d)); [done |].
    intros x t st HI _ Hx _. simpl.
    rewrite map_size_insert.
    pose proof (map_size_delete_Some x (dir st) (ex_intro _ t Hx)) as Hdel.
    assert (size (dir st) <> 0) as Hne.
    { apply (map_size_ne_0_lookup_2 _ x). eauto. }
    destruct (delete x (dir st) !! Rotator.nuevo_nombre x); simpl; lia.
Qed.

(** A rename onto a name that is taken replaces that entry: here the
    older superseded backup is lost. *)
Example rotation_overwrites_on_collision :
  map_to_list
    (dir (Rotator.rotar Samples.keep_ctime Samples.siete_dias
            (fs_init (<["a.rsc" := 0%Q]> {["a-old.rsc" := (-100)%Q]}))))
  = [("a-old.rsc", 0%Q)].
Proof. by vm_compute. Qed.


(** ** Names of the fetched files *)

Lemma app_inj_len_str (a a' b b' : string) :
  a +:+ b = a' +:+ b' -> String.length b = String.length b' ->
  a = a' /\ b = b'.
Proof.
  revert a'. induction a as [|c a IH]; intros a' Heq Hlen.
  - destruct a' as [|c' a']; [done |].
    apply (f_equal String.length) in Heq.
    rewrite app_nil_l_str, length_app_str in Heq. simpl in Heq. lia.
  - destruct a' as [|c' a'].
    + apply (f_equal String.length) in Heq.
      rewrite app_nil_l_str, length_app_str in Heq. simpl in Heq. lia.
    + rewrite !app_cons_str in Heq. injection Heq as -> Heq.
      destruct (IH _ Heq Hlen) as [-> ->]. done.
Qed.

Lemma nuevo_nombre_archivo_split (R D A : string) :
  Fetcher.nuevo_nombre_archivo R D A = (R +:+ "_") +:+ (D +:+ "_" +:+ A).
Proof. unfold Fetcher.nuevo_nombre_archivo. by rewrite !app_assoc_str. Qed.

Lemma app_last_char (s t : string) (c : ascii) :
  s +:+ (t +:+ String c "") = (s +:+ t) +:+ String c "".
Proof. by rewrite app_assoc_str. Qed.

(** X3. Local names do not collide: for date stamps of the same length
    (as [strftime("%Y%m%d")] gives), two files of the allow-list get the
    same local name only when router name, date stamp and file name all
    agree. *)
Theorem local_names_injective (R D A R' D' A' : string) :
  String.length D = String.length D' ->
  In A Fetcher.archivos_deseados -> In A' Fetcher.archivos_deseados ->
  Fetcher.nuevo_nombre_archivo R D A = Fetcher.nuevo_nombre_archivo R' D' A' ->
  R = R' /\ D = D' /\ A = A'.
Proof.
  intros Hlen HA HA' Heq. rewrite !nuevo_nombre_archivo_split in Heq.
  assert (A = A') as <-.
  { destruct HA as [<- | [<- | []]], HA' as [<- | [<- | []]]; try done;
      exfalso.
    - change "latest.rsc" with ("latest.rs" +:+ "c") in Heq.
      change "latest.backup" with ("latest.backu" +:+ "p") in Heq.
      rewrite !(app_last_char "_"), !(app_last_char D),
        !(app_last_char D'), !app_last_char in Heq.
      by apply app_inj_len_str in Heq as [_ [=]].
    - change "latest.rsc" with ("latest.rs" +:+ "c") in Heq.
      change "latest.backup" with ("latest.backu" +:+ "p") in Heq.
      rewrite !(app_last_char "_"), !(app_last_char D),
        !(app_last_char D'), !app_last_char in Heq.
      by apply app_inj_len_str in Heq as [_ [=]]. }
  apply app_inj_len_str in Heq as [HR HD].
  - apply app_inj_len_str in HR as [-> _]; [| done].
    apply app_inj_len_str in HD as [-> _]; done.
  - rewrite !length_app_str. lia.
Qed.

Lemma local_names_injective_witness :
  String.length "20240101" = String.length "20240101"
  /\ In "latest.rsc" Fetcher.archivos_deseados
  /\ Fetcher.nuevo_nombre_archivo "edge1" "20240101" "latest.rsc"
     = Fetcher.nuevo_nombre_archivo "edge1" "20240101" "latest.rsc"
  /\ ("edge1" = "edge1" /\ "20240101" = "20240101"
      /\ "latest.rsc" = "latest.rsc")
  /\ ~ (Fetcher.nuevo_nombre_archivo "edge1" "20240101" "latest.rsc"
        = Fetcher.nuevo_nombre_archivo "edge1" "20240102" "latest.rsc").
Proof.
  assert (In "latest.rsc" Fetcher.archivos_deseados) as HA by (by left).
  split; [reflexivity |]. split; [exact HA |]. split; [reflexivity |].
  split.
  - exact (local_names_injective "edge1" "20240101" "latest.rsc"
             "edge1" "20240101" "latest.rsc" eq_refl HA HA eq_refl).
  - intros Heq.
    destruct (local_names_injective "edge1" "20240101" "latest.rsc"
                "edge1" "20240102" "latest.rsc" eq_refl HA HA Heq)
      as (_ & Hd & _).
    discriminate Hd.
Defined.

Lemma startswith_name_slash (R D A : string) :
  Py.startswith (Fetcher.nuevo_nombre_archivo R D A) "/"
  = Py.startswith R "/".
Proof.
  unfold Fetcher.nuevo_nombre_archivo.
  destruct R; [reflexivity |].
  by rewrite app_cons_str, !startswith_cons, !startswith_nil.
Qed.

(** X4. Where a fetched file lands.  When the router name does not begin
    with the separator the local path is the backup directory, a
    separator unless the directory is empty or ends with one, and the
    name [R_D_A]; when the router name begins with the separator the
    backup directory is dropped and the local path is [R_D_A] itself. *)
Theorem local_path_location (backup_path R D A : string) :
  let name := Fetcher.nuevo_nombre_archivo R D A in
  let localpath := os_path_join backup_path name in
  (Py.startswith R "/" = false ->
   Py.startswith localpath backup_path = true
   /\ Py.endswith localpath name = true
   /\ String.length localpath
      <= String.length backup_path + 1 + String.length name)
  /\ (Py.startswith R "/" = true ->
      localpath = name /\ Py.startswith localpath "/" = true).
Proof.
  intros name localpath.
  assert (Py.startswith name "/" = Py.startswith R "/") as Hs
    by apply startswith_name_slash.
  unfold localpath, os_path_join. rewrite Hs. split.
  - intros ->.
    destruct (String.eqb backup_path "" || Py.endswith backup_path "/").
    + split; [apply startswith_spec; eauto |].
      split; [apply endswith_spec; eauto |].
      rewrite length_app_str. lia.
    + split; [apply startswith_spec; eauto |].
      split; [apply endswith_spec; exists (backup_path +:+ "/");
              by rewrite app_assoc_str |].
      rewrite !length_app_str. simpl. lia.
  - intros HR. rewrite HR. split; [done |]. by rewrite Hs.
Qed.

Lemma local_path_location_witness :
  Py.startswith "edge1" "/" = false
  /\ os_path_join "/srv/bk"
       (Fetcher.nuevo_nombre_archivo "edge1" "20240101" "latest.rsc")
     = "/srv/bk/edge1_20240101_latest.rsc"
  /\ Py.startswith
       (os_path_join "/srv/bk"
          (Fetcher.nuevo_nombre_archivo "edge1" "20240101" "latest.rsc"))
       "/srv/bk" = true
  /\ Py.startswith "/tmp/x" "/" = true
  /\ os_path_join "/srv/bk"
       (Fetcher.nuevo_nombre_archivo "/tmp/x" "20240101" "latest.rsc")
     = "/tmp/x_20240101_latest.rsc".
Proof.
  split; [reflexivity |]. split; [reflexivity |]. split.
  - exact (proj1 (proj1 (local_path_location "/srv/bk" "edge1" "20240101"
                           "latest.rsc") eq_refl)).
  - split; [reflexivity |].
    exact (proj1 (proj2 (local_path_location "/srv/bk" "/tmp/x" "20240101"
                           "latest.rsc") eq_refl)).
Defined.

Lemma endswith_app_same_length (s t suf : string) :
  String.length t = String.length suf -> t <> suf ->
  Py.endswith (s +:+ t) suf = false.
Proof.
  intros Hlen Hne. apply not_true_iff_false.
  intros [u Hu]%endswith_spec.
  by apply app_inj_len_str in Hu as [_ ?].
Qed.

(** X5. Every file the fetcher names is a rotation candidate, whatever the
    router name and the date stamp; and when neither extension occurs in
    [R_D_latest], rotating it gives exactly [R_D_latest-old.rsc], or
    [R_D_latest-old.backup] for the binary export. *)
Theorem fetched_names_rotate (R D : string) :
  let stem := R +:+ "_" +:+ D +:+ "_latest" in
  Rotator.es_candidato (Fetcher.nuevo_nombre_archivo R D "latest.rsc") = true
  /\ Rotator.es_candidato (Fetcher.nuevo_nombre_archivo R D "latest.backup")
     = true
  /\ (Py.contains stem ".rsc" = false ->
      Py.contains stem ".backup" = false ->
      Rotator.nuevo_nombre (Fetcher.nuevo_nombre_archivo R D "latest.rsc")
        = stem +:+ "-old.rsc"
      /\ Rotator.nuevo_nombre
           (Fetcher.nuevo_nombre_archivo R D "latest.backup")
         = stem +:+ "-old.backup").
Proof.
  intros stem.
  assert (Fetcher.nuevo_nombre_archivo R D "latest.rsc" = stem +:+ ".rsc")
    as Hrsc.
  { unfold stem, Fetcher.nuevo_nombre_archivo. by rewrite !app_assoc_str. }
  assert (Fetcher.nuevo_nombre_archivo R D "latest.backup"
          = stem +:+ ".backup") as Hbak.
  { unfold stem, Fetcher.nuevo_nombre_archivo. by rewrite !app_assoc_str. }
  assert (forall ext, stem +:+ ext
                      = (R +:+ "_" +:+ D) +:+ ("_latest" +:+ ext)) as Hsplit.
  { intros ext. unfold stem. by rewrite !app_assoc_str. }
  rewrite Hrsc, Hbak. split; [| split].
  - unfold Rotator.es_candidato, Py.endswith_any. simpl.
    rewrite (proj2 (endswith_spec _ ".rsc")) by eauto. simpl.
    rewrite !orb_false_r, Hsplit.
    change ("_latest" +:+ ".rsc") with ("_la" +:+ "test.rsc").
    rewrite <- app_assoc_str, endswith_app_same_length by done.
    change ("_la" +:+ "test.rsc") with ("latest.rsc").
    rewrite app_assoc_str.
    change ("_la" +:+ "test.rsc") with ("" +:+ "_latest.rsc").
    rewrite <- app_assoc_str, endswith_app_same_length by done. done.
  - unfold Rotator.es_candidato, Py.endswith_any. simpl.
    rewrite (proj2 (endswith_spec _ ".backup")) by eauto.
    rewrite orb_true_r. simpl. rewrite !orb_false_r, Hsplit.
    change ("_latest" +:+ ".backup") with ("_latest" +:+ ".backup").
    change ("_latest" +:+ ".backup") with ("_lates" +:+ "t.backup").
    rewrite <- app_assoc_str, endswith_app_same_length by done.
    rewrite app_assoc_str.
    change ("_lates" +:+ "t.backup") with ("_la" +:+ "test.backup").
    rewrite <- app_assoc_str, endswith_app_same_length by done. done.
  - intros H1 H2. split.
    + rewrite nuevo_nombre_rsc, nuevo_nombre_absent by done. done.
    + rewrite nuevo_nombre_backup, nuevo_nombre_absent by done. done.
Qed.

Lemma fetched_names_rotate_witness :
  Py.contains "edge1_20240101_latest" ".rsc" = false
  /\ Py.contains "edge1_20240101_latest" ".backup" = false
  /\ Rotator.nuevo_nombre
       (Fetcher.nuevo_nombre_archivo "edge1" "20240101" "latest.rsc")
     = "edge1_20240101_latest-old.rsc"
  /\ Rotator.nuevo_nombre
       (Fetcher.nuevo_nombre_archivo "edge1" "20240101" "latest.backup")
     = "edge1_20240101_latest-old.backup".
Proof.
  split; [reflexivity |]. split; [reflexivity |].
  destruct (fetched_names_rotate "edge1" "20240101") as (_ & _ & H).
  exact (H eq_refl eq_refl).
Defined.

(** ** What a fetch writes and logs *)

Section FetcherJustified.

Import Fetcher.

Variable r : Remote.
Variables router_name backup_path current_time : string.

Local Abbreviation just :=
  (FetcherLog.justified r router_name backup_path current_time).
Local Abbreviation uncaught := (fun e => caught e = false).
Local Abbreviation any := (fun _ : unit => True).
Local Abbreviation localpath_of := (fun archivo =>
  os_path_join backup_path
    (nuevo_nombre_archivo router_name current_time archivo)).

Lemma behaves_emit_post Q C (V : unit -> Prop) ev :
  Q ev -> V tt -> behaves Q C V (emit ev).
Proof.
  intros Hev HV tr. exists [ev], (Return tt).
  repeat split; [by apply Forall_singleton | done].
Qed.

Lemma descargar_archivo_justified archivo l :
  In archivo archivos_deseados ->
  listdir_outcome r "." = Return l -> Py.str_in archivo l = true ->
  behaves just uncaught any
    (descargar_archivo r archivo backup_path router_name current_time).
Proof.
  intros Hin Hl Hmem. unfold descargar_archivo.
  assert (In archivo archivos_deseados
          /\ exists l, listdir_outcome r "." = Return l
                       /\ Py.str_in archivo l = true) as Hlisted by eauto.
  apply behaves_try_except
    with (C0 := fun e =>
            get_outcome r ("/" +:+ archivo) (localpath_of archivo) = Raise e).
  - unfold sftp_get, logging.
    eapply behaves_bind
      with (V := fun _ =>
              get_outcome r ("/" +:+ archivo) (localpath_of archivo)
              = Return tt).
    + eapply behaves_bind.
      { apply behaves_emit. simpl. by exists archivo. }
      intros _ _.
      eapply behaves_bind
        with (V := fun _ =>
                local_open_outcome r (localpath_of archivo) = Return tt).
      { apply behaves_call.
        destruct (local_open_outcome r _) as [[] | e] eqn:E; [done |].
        unfold get_outcome. by rewrite E. }
      intros _ Hopen. eapply behaves_bind.
      { apply behaves_emit. simpl. by exists archivo. }
      intros _ _.
      eapply behaves_bind
        with (V := fun _ =>
                get_outcome r ("/" +:+ archivo) (localpath_of archivo)
                = Return tt).
      { apply behaves_call. unfold get_outcome. rewrite Hopen.
        by destruct (transfer_outcome r _ _) as [[] | e]. }
      intros _ Hok. apply behaves_emit_post; [| done].
      simpl. by exists archivo.
    + intros _ Hok. by apply behaves_emit.
  - intros e He. unfold logging.
    destruct e; simpl; try done; apply behaves_emit; simpl;
      first [ split; [done |]; exists archivo; split;
              [exact Hlisted | exact He]
            | split; [done |]; split; [exact Hlisted | exact He] ].
Qed.

Lemma descargar_archivos_justified c tr :
  exists tr' res,
    descargar_archivos r (Some c) router_name backup_path current_time tr
    = (tr ++ tr' ++ [EvSessionClose], res)
    /\ Forall just tr'
    /\ match res with Return _ => True | Raise e => caught e = false end.
Proof.
  unfold descargar_archivos, try_finally.
  match goal with
  | |- context [try_except ?m ?h tr] =>
      assert (behaves just uncaught any (try_except m h)) as Hin
  end.
  { apply behaves_try_except
      with (C0 := fun e =>
              (open_sftp_outcome r = Raise e
               \/ listdir_outcome r "." = Raise e)
              \/ caught e = false).
    - unfold with_open_sftp.
      eapply behaves_bind
        with (V := fun a => open_sftp_outcome r = Return a).
      { apply behaves_call.
        destruct (open_sftp_outcome r); [done | by left; left]. }
      intros [] Hopen. eapply behaves_bind; [by apply behaves_emit |].
      intros _ _. apply behaves_try_finally; [| by apply behaves_emit].
      eapply behaves_bind
        with (V := fun l => listdir_outcome r "." = Return l).
      { unfold sftp_listdir.
        eapply behaves_bind; [by apply behaves_emit |].
        intros _ _. apply behaves_call.
        destruct (listdir_outcome r "."); [done | by left; right]. }
      intros l Hl. apply behaves_for_each. intros archivo Hin.
      destruct (Py.str_in archivo l) eqn:Hmem.
      + eapply behaves_weaken;
          [| | | by eapply descargar_archivo_justified];
          [done | by right | done].
      + apply behaves_emit. simpl. eauto.
    - intros e He. unfold logging, caught in *.
      destruct (is_SSHException e) eqn:Hssh.
      + apply behaves_emit. simpl.
        destruct He as [He | He]; [done | done].
      + destruct (is_OSError e) eqn:Hos; [| done].
        apply behaves_emit. simpl.
        destruct He as [He | He]; [done | done]. }
  destruct (Hin tr) as (tr' & res & -> & Htr' & Hres).
  unfold emit. exists tr', res. rewrite app_assoc.
  split; [done |]. split; [done |]. by destruct res.
Qed.

Lemma conectar_ssh_from ip tr :
  conectar_ssh r ip tr
  = match connect_outcome r with
    | Return _ => (tr ++ [EvSessionOpen ip], Return (Some (SSHClientTo ip)))
    | Raise e =>
        if caught e
        then (tr ++ [EvLog (match e with
                            | AuthenticationException => LogConnectAuth ip
                            | SSHException => LogConnectSSH ip e
                            | _ => LogConnectOS ip e
                            end)], Return None)
        else (tr, Raise e)
    end.
Proof.
  unfold conectar_ssh, try_except, ssh_connect, mbind, M_bind, bind, call,
    emit.
  destruct (connect_outcome r) as [[] | e]; [done |]. by destruct e.
Qed.

Lemma localpath_of_inj a a' : localpath_of a = localpath_of a' -> a = a'.
Proof.
  unfold os_path_join. rewrite !startswith_name_slash.
  unfold nuevo_nombre_archivo.
  destruct (Py.startswith router_name "/");
    [| destruct (String.eqb backup_path "" || Py.endswith backup_path "/")];
    intros H; repeat apply (inj (String.append _)) in H; done.
Qed.

End FetcherJustified.


(** A transfer that is refused leaves the file it opened; when the file
    cannot be opened locally, the router is not asked for it. *)
Example failed_transfer_leaves_file :
  let tr :=
    fst (Fetcher.descargar_archivos Samples.router_denied
           (Some Samples.cliente) "edge1" "/srv/bk" "20240101" []) in
  EvLocalOpen "/srv/bk/edge1_20240101_latest.rsc" ∈ tr
  /\ EvWritten "/srv/bk/edge1_20240101_latest.rsc" ∉ tr.
Proof.
  split.
  - vm_compute. do 3 right. left.
  - vm_compute. intros H.
    repeat (apply elem_of_cons in H as [H | H]; [done |]).
    by apply elem_of_nil in H.
Qed.

Example local_open_refused :
  Fetcher.descargar_archivos Samples.router_sin_escritura
    (Some Samples.cliente) "edge1" "/srv/bk" "20240101" []
  = ([EvSftpOpen; EvListdir ".";
      EvGet "/latest.rsc" "/srv/bk/edge1_20240101_latest.rsc";
      EvLog (LogGetPermission PermissionError);
      EvGet "/latest.backup" "/srv/bk/edge1_20240101_latest.backup";
      EvLog (LogGetPermission PermissionError);
      EvSftpClose; EvSessionClose], Return tt).
Proof. reflexivity. Qed.

(** X7. An allow-listed file the listing lacks is not asked for, no file
    is opened or written under its local name and no download of it is
    logged;
    when the SFTP client opened, the warning naming the file and the
    router is logged unless the call has ended with an exception. *)
Theorem absent_file_skipped
    (r : Remote) (c : SSHClient)
    (router_name backup_path current_time : string)
    (l : list string) (archivo : string) :
  listdir_outcome r "." = Return l ->
  In archivo Fetcher.archivos_deseados ->
  Py.str_in archivo l = false ->
  let out :=
    Fetcher.descargar_archivos r (Some c) router_name backup_path
      current_time [] in
  (forall localpath, EvGet ("/" +:+ archivo) localpath ∉ fst out)
  /\ (EvLocalOpen
        (os_path_join backup_path
           (Fetcher.nuevo_nombre_archivo router_name current_time archivo))
      ∉ fst out)
  /\ (EvWritten
        (os_path_join backup_path
           (Fetcher.nuevo_nombre_archivo router_name current_time archivo))
      ∉ fst out)
  /\ (forall n, EvLog (LogDownloaded archivo n) ∉ fst out)
  /\ (open_sftp_outcome r = Return tt ->
      EvLog (LogMissing archivo router_name) ∈ fst out
      \/ exists e, snd out = Raise e).
Proof.
  intros Hl Hin Hmem out.
  destruct (descargar_archivos_justified r router_name backup_path
              current_time c []) as (tr' & res & Hrun & Hj & _).
  assert (fst out = tr' ++ [EvSessionClose]) as Hfst
    by (unfold out; by rewrite Hrun).
  rewrite Forall_forall in Hj.
  assert (forall ev, ev ∈ fst out -> ev <> EvSessionClose ->
            FetcherLog.justified r router_name backup_path current_time ev)
    as Hjust.
  { intros ev Hev Hne. rewrite Hfst, elem_of_app, list_elem_of_singleton in Hev.
    destruct Hev as [Hev | ->]; [by apply Hj | done]. }
  split; [| split; [| split; [| split]]].
  - intros localpath Hev. apply Hjust in Hev; [| done]. simpl in Hev.
    destruct Hev as (a & (_ & l' & Hl' & Hmem') & Heq & _).
    apply (inj (String.append "/")) in Heq as <-. congruence.
  - intros Hev. apply Hjust in Hev; [| done]. simpl in Hev.
    destruct Hev as (a & (_ & l' & Hl' & Hmem') & Heq & _).
    apply localpath_of_inj in Heq as <-. congruence.
  - intros Hev. apply Hjust in Hev; [| done]. simpl in Hev.
    destruct Hev as (a & (_ & l' & Hl' & Hmem') & Heq & _).
    apply localpath_of_inj in Heq as <-. congruence.
  - intros n Hev. apply Hjust in Hev; [| done]. simpl in Hev.
    destruct Hev as (_ & (_ & l' & Hl' & Hmem') & _). congruence.
  - intros Ho.
    destruct (descargar_archivos_solicitudes r router_name backup_path
                current_time c l Ho Hl) as (_ & _ & _ & Hr).
    unfold out.
    destruct (snd (Fetcher.descargar_archivos r (Some c) router_name
                     backup_path current_time [])) as [[] | e];
      [left | right; by exists e].
    destruct Hr as [_ Hm]. by apply Hm.
Qed.

Lemma absent_file_skipped_witness :
  listdir_outcome Samples.router_home "." = Return ["latest.rsc"]
  /\ In "latest.backup" Fetcher.archivos_deseados
  /\ Py.str_in "latest.backup" ["latest.rsc"] = false
  /\ EvLog (LogMissing "latest.backup" "edge1")
       ∈ fst (Fetcher.descargar_archivos Samples.router_home
                (Some Samples.cliente) "edge1" "/srv/bk" "20240101" []).
Proof.
  assert (listdir_outcome Samples.router_home "." = Return ["latest.rsc"])
    as Hl by reflexivity.
  assert (In "latest.backup" Fetcher.archivos_deseados) as Hin
    by (right; by left).
  split; [exact Hl |]. split; [exact Hin |]. split; [reflexivity |].
  destruct (absent_file_skipped Samples.router_home Samples.cliente
              "edge1" "/srv/bk" "20240101" ["latest.rsc"] "latest.backup"
              Hl Hin eq_refl) as (_ & _ & _ & _ & Hw).
  destruct (Hw eq_refl) as [H | [e He]]; [exact H |].
  vm_compute in He. discriminate He.
Defined.

(** ** One backup job *)

(** X8. A backup job, [respaldar_router], goes one of three ways.  When
    the connect returns, the job opens the session, does the fetch and
    closes the session last; all events in between are those of the
    fetch.  When the connect raises an [SSHException] or an [OSError], the
    job logs one ERROR line that names the address and returns without
    touching the router any further.  When the connect raises anything
    else, the job raises it and logs nothing.  A job never raises an
    [SSHException] or an [OSError]. *)
Theorem job_outcomes
    (r : Remote) (ip_address router_name backup_path current_time : string) :
  let out :=
    Fetcher.respaldar_router r ip_address router_name backup_path
      current_time [] in
  match connect_outcome r with
  | Return _ =>
      exists tr',
        fst out = EvSessionOpen ip_address :: tr' ++ [EvSessionClose]
        /\ Forall (FetcherLog.justified r router_name backup_path
                     current_time) tr'
  | Raise e =>
      if Fetcher.caught e
      then snd out = Return tt
           /\ exists line,
                fst out = [EvLog line]
                /\ level_of line = ERROR
                /\ (line = LogConnectAuth ip_address
                    \/ line = LogConnectSSH ip_address e
                    \/ line = LogConnectOS ip_address e)
      else out = ([], Raise e)
  end
  /\ (forall e, snd out = Raise e -> Fetcher.caught e = false).
Proof.
  intros out. unfold out, Fetcher.respaldar_router, mbind, M_bind, bind.
  rewrite conectar_ssh_from.
  destruct (connect_outcome r) as [[] | e].
  - destruct (descargar_archivos_justified r router_name backup_path
                current_time (SSHClientTo ip_address)
                ([] ++ [EvSessionOpen ip_address]))
      as (tr' & res & -> & Hj & Hres).
    split; [by exists tr' |]. simpl. intros e ->. done.
  - destruct (Fetcher.caught e) eqn:Hc.
    + split; [| by intros ?].
      split; [done |]. eexists. split; [reflexivity |].
      destruct e; try done; simpl; auto.
    + split; [done |]. simpl. by intros ? [= <-].
Qed.
